(** * A shallow embedding of the planar geometry library
      (geometry/plane.py and geometry/algorithms.py)

    Coordinates are Python floats in the source; they are modelled here by
    exact rationals [Q].  Python's [==] on floats is numeric equality
    ([Qeq_bool]); a float division by zero raises [ZeroDivisionError], so
    every division whose divisor can be zero goes through [qdiv].

    A Python [set] is modelled by a duplicate-free list whose order stands
    for the set's iteration order.  In [convex_hull], where that order
    decides ties, the order of each set the code builds is left open (a
    [set_order]); elsewhere a set comprehension keeps the order of the
    collection it runs over.
    A [dict] is an association list in insertion order (Python dicts iterate
    in insertion order).  Exceptions are the constructors of [error]. *)

From Stdlib Require Import QArith Qreals Reals Lra List Bool String Lia Permutation.
From Stdlib Require Lqa.
Import ListNotations.

Open Scope Q_scope.

(** ** Exceptions and the error monad *)

Inductive error : Type :=
  | GeometryException (msg : string)
      (** [raise Exception(...)] in [Segment.__init__] and
          [Line.from_two_points] *)
  | ZeroDivisionError
  | AttributeError (name : string)
  | TypeError
  | ValueError
  | IndexError
  | KeyError.

Inductive result (A : Type) : Type :=
  | Ok (a : A)
  | Err (e : error).
Arguments Ok {A} a.
Arguments Err {A} e.

Definition bind {A B : Type} (m : result A) (k : A -> result B) : result B :=
  match m with
  | Ok a => k a
  | Err e => Err e
  end.

Notation "x <- m ;; k" := (bind m (fun x => k))
  (at level 61, m at next level, right associativity).

(** Python's [<] on floats. *)
Definition Qlt_bool (a b : Q) : bool := negb (Qle_bool b a).

(** A Python float division [n / d]. *)
Definition qdiv (n d : Q) : result Q :=
  if Qeq_bool d 0 then Err ZeroDivisionError else Ok (n / d).

(** ** [Point] *)

(** The optional [canvas_id] of the source takes no part in equality,
    hashing or geometry and is left out. *)
Record Point : Type := mkPoint { px : Q; py : Q }.

(** [Point.__eq__]: [(self.x, self.y) == (other.x, other.y)]. *)
Definition point_eqb (p q : Point) : bool :=
  Qeq_bool (px p) (px q) && Qeq_bool (py p) (py q).

(** [p in S] for a set (or list) of points. *)
Definition point_mem (p : Point) (l : list Point) : bool :=
  existsb (point_eqb p) l.

(** [Point.__mul__]: the dot product. *)
Definition dot (p q : Point) : Q := px p * px q + py p * py q.

(** [Point.midpoint]. *)
Definition midpoint (p q : Point) : Point :=
  mkPoint ((px p + px q) / 2) ((py p + py q) / 2).

(** [Point.distance_to]: [((x - x')**2 + (y - y')**2)**0.5]; the radicand is
    a sum of squares, so [** 0.5] is the real square root. *)
Definition point_distance_sq (p q : Point) : Q :=
  (px p - px q) * (px p - px q) + (py p - py q) * (py p - py q).

Definition point_distance (p q : Point) : R := sqrt (Q2R (point_distance_sq p q)).

(** ** [Segment] *)

Record Segment : Type := mkSegment { sp1 : Point; sp2 : Point }.

(** [Segment.__init__]: raises when both points are equal. *)
Definition Segment_new (p1 p2 : Point) : result Segment :=
  if point_eqb p1 p2
  then Err (GeometryException "A segment cannot begin and end on the same point")
  else Ok (mkSegment p1 p2).

(** [Segment.__eq__]: [not {self.p1, self.p2} - {other.p1, other.p2}]. *)
Definition segment_eqb (s t : Segment) : bool :=
  forallb (fun p => point_mem p [sp1 t; sp2 t]) [sp1 s; sp2 s].

(** ** [Triangle] *)

Record Triangle : Type := mkTriangle { tp1 : Point; tp2 : Point; tp3 : Point }.

Definition triangle_points (t : Triangle) : list Point := [tp1 t; tp2 t; tp3 t].

(** [Triangle.__eq__]: [not {self.p1, self.p2, self.p3} - {other.p1, ...}]. *)
Definition triangle_eqb (t u : Triangle) : bool :=
  forallb (fun p => point_mem p (triangle_points u)) (triangle_points t).

(** [Triangle.strictly_contains] (barycentric test). *)
Definition triangle_strictly_contains (t : Triangle) (p : Point) : bool :=
  let d_x := px p - px (tp3 t) in
  let d_y := py p - py (tp3 t) in
  let d_x_p3p2 := px (tp3 t) - px (tp2 t) in
  let d_y_p2p3 := py (tp2 t) - py (tp3 t) in
  let d := d_y_p2p3 * (px (tp1 t) - px (tp3 t)) + d_x_p3p2 * (py (tp1 t) - py (tp3 t)) in
  let s := d_y_p2p3 * d_x + d_x_p3p2 * d_y in
  let u := (py (tp3 t) - py (tp1 t)) * d_x + (px (tp1 t) - px (tp3 t)) * d_y in
  if Qlt_bool d 0
  then Qlt_bool s 0 && Qlt_bool u 0 && Qlt_bool d (s + u)
  else Qlt_bool 0 s && Qlt_bool 0 u && Qlt_bool (s + u) d.

(** [Triangle.shares_point]. *)
Definition shares_point (t other : Triangle) : bool :=
  let points := triangle_points t in
  point_mem (tp1 other) points || point_mem (tp2 other) points
  || point_mem (tp3 other) points.

(** ** [Line]: [a x + b y + c = 0] *)

Record Line : Type := mkLine { la : Q; lb : Q; lc : Q }.

(** The attribute [slope], set by [Line.__init__]:
    [-a / b if b != 0 else None]. *)
Definition slope (l : Line) : option Q :=
  if Qeq_bool (lb l) 0 then None else Some (- la l / lb l).

(** Python's [==] between two [slope] values ([None == None] is true). *)
Definition slope_eqb (s t : option Q) : bool :=
  match s, t with
  | None, None => true
  | Some u, Some v => Qeq_bool u v
  | _, _ => false
  end.

(** [Line.from_two_points]; the division is by [p2.x - p1.x], which is
    non-zero in its branch. *)
Definition from_two_points (p1 p2 : Point) : result Line :=
  if point_eqb p1 p2 then Err (GeometryException "Points cannot be equal")
  else if Qeq_bool (px p1) (px p2) then Ok (mkLine 1 0 (- px p1))
  else
    let m := (py p2 - py p1) / (px p2 - px p1) in
    Ok (mkLine m (-1) (py p1 - m * px p1)).

(** [Line.contains]. *)
Definition line_contains (l : Line) (p : Point) : bool :=
  Qeq_bool (la l * px p + lb l * py p + lc l) 0.

(** [Line.orthogonal_line]; [None] is the source's [return None]. *)
Definition orthogonal_line (l : Line) (p : Point) : result (option Line) :=
  if negb (line_contains l p) then Ok None
  else if Qeq_bool (la l) 0 then Ok (Some (mkLine 1 0 (- px p)))
  else if Qeq_bool (lb l) 0 then Ok (Some (mkLine 0 1 (- py p)))
  else
    match slope l with
    | Some s => m <- qdiv (-1) s ;; Ok (Some (mkLine m (-1) (py p - m * px p)))
    | None => Err TypeError
    end.

(** [Line.distance_to], squared.  The source returns an [abs] value in the
    first two branches and a [** 0.5] in the third; the only caller,
    [max(..., key=...)] in [convex_hull], compares keys computed against
    one line, so squaring (monotone on non-negative values) keeps every
    comparison. *)
Definition distance_to (l : Line) (p : Point) : result Q :=
  if Qeq_bool (la l) 0 then
    v <- qdiv (lc l) (lb l) ;; Ok ((py p + v) * (py p + v))
  else if Qeq_bool (lb l) 0 then
    v <- qdiv (lc l) (la l) ;; Ok ((px p + v) * (px p + v))
  else
    match slope l with
    | Some s =>
        y <- qdiv (s * lc l + py p * la l + s * px p * la l) (la l - s * lb l) ;;
        x' <- qdiv (- (lb l * y + lc l)) (la l) ;;
        Ok ((x' - px p) * (x' - px p) + (y - py p) * (y - py p))
    | None => Err TypeError
    end.

(** [Line.is_strictly_below]. *)
Definition is_strictly_below (l : Line) (p : Point) : result bool :=
  if Qeq_bool (lb l) 0 then
    v <- qdiv (- lc l) (la l) ;; Ok (Qlt_bool v (px p))
  else
    v <- qdiv (- (px p * la l + lc l)) (lb l) ;; Ok (Qlt_bool v (py p)).

(** [Line.intersection]; [None] when the slopes are equal. *)
Definition intersection (self other : Line) : result (option Point) :=
  if slope_eqb (slope self) (slope other) then Ok None
  else
    y <- qdiv (la self * lc other - la other * lc self)
              (la other * lb self - la self * lb other) ;;
    let line := if negb (Qeq_bool (la self) 0) then self else other in
    u <- qdiv (- lb line * y) (la line) ;;
    v <- qdiv (lc line) (la line) ;;
    Ok (Some (mkPoint (u - v) y)).

(** ** [Circle]: [(x - h)^2 + (y - k)^2 = r^2] *)

(** The source stores the radius [r = r2 ** 0.5]; the model stores [r2].
    [Circle.strictly_contains] compares [distance < r], which for the
    non-negative square roots is [distance^2 < r2]; a negative [r2] makes
    [** 0.5] a complex number, and [<] on it raises [TypeError]. *)
Record Circle : Type := mkCircle { ch : Q; ck : Q; cr2 : Q }.

(** [Circle.from_triangle]: the circumcircle by the determinant formula;
    [s.x / d1] raises [ZeroDivisionError] when [d1 == 0]. *)
Definition from_triangle (t : Triangle) : result Circle :=
  let a := tp1 t in
  let b := tp2 t in
  let c := tp3 t in
  let s := mkPoint
    ((1#2) * (dot a a * (py b - py c) - dot b b * (py a - py c) + dot c c * (py a - py b)))
    ((1#2) * (- dot a a * (px b - px c) + dot b b * (px a - px c) - dot c c * (px a - px b))) in
  let d1 := px a * (py b - py c) - px b * (py a - py c) + px c * (py a - py b) in
  let d2 := dot a a * (px b * py c - py b * px c) - dot b b * (px a * py c - py a * px c)
            + dot c c * (px a * py b - py a * px b) in
  h <- qdiv (px s) d1 ;;
  k <- qdiv (py s) d1 ;;
  u <- qdiv d2 d1 ;;
  v <- qdiv (dot s s) (d1 * d1) ;;
  Ok (mkCircle h k (u + v)).

(** [Circle.strictly_contains]. *)
Definition circle_strictly_contains (c : Circle) (p : Point) : result bool :=
  if Qlt_bool (cr2 c) 0 then Err TypeError
  else
    let dx := ch c - px p in
    let dy := ck c - py p in
    Ok (Qlt_bool (dx * dx + dy * dy) (cr2 c)).

(** ** Iteration helpers in the error monad *)

(** A comprehension [{p for p in l if f(p)}]; [f] runs in iteration order. *)
Fixpoint filterM {A : Type} (f : A -> result bool) (l : list A) : result (list A) :=
  match l with
  | [] => Ok []
  | h :: t => b <- f h ;; r <- filterM f t ;; Ok (if b then h :: r else r)
  end.

(** [for p in l: (s1 if f(p) else s2).add(p)]. *)
Fixpoint partitionM {A : Type} (f : A -> result bool) (l : list A)
  : result (list A * list A) :=
  match l with
  | [] => Ok ([], [])
  | h :: t =>
      b <- f h ;;
      r <- partitionM f t ;;
      Ok (if b then (h :: fst r, snd r) else (fst r, h :: snd r))
  end.

Fixpoint mapM {A B : Type} (f : A -> result B) (l : list A) : result (list B) :=
  match l with
  | [] => Ok []
  | h :: t => b <- f h ;; r <- mapM f t ;; Ok (b :: r)
  end.

(** The item Python's [max] keeps: it replaces the current maximum only by
    an item whose key is strictly greater, so the first maximal item wins. *)
Fixpoint first_max (best : Point * Q) (l : list (Point * Q)) : Point :=
  match l with
  | [] => fst best
  | (p, k) :: t =>
      if Qlt_bool (snd best) k then first_max (p, k) t else first_max best t
  end.

(** [max(l, key=key)]; the key of every item is computed in order. *)
Definition max_by_key (key : Point -> result Q) (l : list Point) : result Point :=
  ks <- mapM (fun p => k <- key p ;; Ok (p, k)) l ;;
  match ks with
  | [] => Err ValueError
  | b :: t => Ok (first_max b t)
  end.

(** ** [convex_hull] (Quickhull) *)

(** The order in which a set built by [convex_hull] is iterated.  CPython
    iterates a set in an order fixed by the hashes of its items and the
    history of its table, which the model does not compute: a [set_order]
    receives a path naming the set (the place in the code that builds it,
    below the recursion path of [find_hull]) and the items in the order
    they are added, and answers the order of iteration.  The input set
    [points] is iterated as the list the model receives. *)
Definition set_order : Type := list nat -> list Point -> list Point.

(** What CPython guarantees: a set is iterated over each of its items
    once. *)
Definition set_order_ok (order : set_order) : Prop :=
  forall path l, Permutation (order path l) l.

(** The sets iterated in the order their items were added. *)
Definition insertion_order : set_order := fun _ l => l.

(** The closure [find_hull] of [convex_hull].  The source appends to the
    shared list [hull]: first the points of the recursive call on [s1],
    then [furthest_point], then those of the call on [s2]; the model returns
    that run of appended points.  The sets built here are
    [{p for p in _points if ...} - {furthest_point}] (path [0 :: path]),
    [s1] and [s2] ([1 :: path], [2 :: path]); the recursive calls run
    below [3 :: path] and [4 :: path].  Each call removes [furthest_point]
    from its candidates, so [fuel] = the number of candidates is never
    exhausted (the [O] case is not reached). *)
Fixpoint find_hull (order : set_order) (path : list nat) (fuel : nat)
  (pts : list Point) (p1 p2 : Point) : result (list Point) :=
  match pts with
  | [] => Ok []
  | _ :: _ =>
    match fuel with
    | O => Ok []
    | S fuel' =>
      main_line <- from_two_points p1 p2 ;;
      furthest_point <- max_by_key (distance_to main_line) pts ;;
      let triangle := mkTriangle p1 furthest_point p2 in
      let pts' := order (0%nat :: path)
                    (filter (fun p => negb (point_eqb p furthest_point))
                       (filter (fun p => negb (triangle_strictly_contains triangle p)) pts)) in
      line_p1fp <- from_two_points p1 furthest_point ;;
      above <- is_strictly_below main_line furthest_point ;;
      parts <- (if above
                then partitionM (fun p => b <- is_strictly_below line_p1fp p ;;
                                          Ok (b || line_contains line_p1fp p)) pts'
                else partitionM (fun p => b <- is_strictly_below line_p1fp p ;;
                                          Ok (negb b)) pts') ;;
      let s1 := order (1%nat :: path) (fst parts) in
      let s2 := order (2%nat :: path) (snd parts) in
      h1 <- find_hull order (3%nat :: path) fuel' s1 p1 furthest_point ;;
      h2 <- find_hull order (4%nat :: path) fuel' s2 furthest_point p2 ;;
      Ok (h1 ++ furthest_point :: h2)
    end
  end.

Arguments find_hull : simpl nomatch.

(** The scan for [min_x]: forward over [points_as_list[1:]], replacing on a
    strictly smaller abscissa. *)
Definition scan_min_x (first : Point) (rest : list Point) : Point :=
  fold_left (fun m q => if Qlt_bool (px q) (px m) then q else m) rest first.

(** The scan for [max_x]: backward from [points_as_list[n - 2]] down to
    [points_as_list[0]], replacing on a strictly greater abscissa. *)
Definition scan_max_x (last : Point) (rest_rev : list Point) : Point :=
  fold_left (fun m q => if Qlt_bool (px m) (px q) then q else m) rest_rev last.

(** [convex_hull]; [points] is the input set in its order of iteration.
    The two sets it builds, the points strictly above [line] and the
    others less [{min_x, max_x}], are iterated by [order] (paths [[0]]
    and [[2]]); the two calls of [find_hull] run below [[1]] and [[3]]. *)
Definition convex_hull (order : set_order) (points : list Point) : result (list Point) :=
  let n := List.length points in
  if Nat.leb n 3 then Ok points
  else
    match points, rev points with
    | first :: rest, last :: rest_rev =>
      let min_x := scan_min_x first rest in
      let max_x := scan_max_x last rest_rev in
      line <- from_two_points min_x max_x ;;
      upper <- filterM (is_strictly_below line) points ;;
      h1 <- find_hull order [1%nat] n (order [0%nat] upper) min_x max_x ;;
      lower <- filterM (fun p => b <- is_strictly_below line p ;; Ok (negb b)) points ;;
      h2 <- find_hull order [3%nat] n
              (order [2%nat] (filter (fun p => negb (point_mem p [min_x; max_x])) lower))
              max_x min_x ;;
      Ok (min_x :: h1 ++ max_x :: h2)
    | _, _ => Err IndexError
    end.

(** The orders of the items of a list: [inserts a l] puts [a] at each
    place of [l]. *)
Fixpoint inserts {A : Type} (a : A) (l : list A) : list (list A) :=
  match l with
  | [] => [[a]]
  | b :: t => (a :: b :: t) :: map (cons b) (inserts a t)
  end.

Fixpoint orders {A : Type} (l : list A) : list (list A) :=
  match l with
  | [] => [[]]
  | a :: t => flat_map (inserts a) (orders t)
  end.


(** ** [delaunay_triangulation] (Bowyer-Watson) *)

(** [Triangle(p1, p2, p3)] edges [Segment(p1, p2), Segment(p2, p3),
    Segment(p3, p1)], built in this order. *)
Definition triangle_edges (t : Triangle) : result (list Segment) :=
  e1 <- Segment_new (tp1 t) (tp2 t) ;;
  e2 <- Segment_new (tp2 t) (tp3 t) ;;
  e3 <- Segment_new (tp3 t) (tp1 t) ;;
  Ok [e1; e2; e3].

(** [edge in polygon]; the stored element is compared with the key. *)
Definition segment_mem (e : Segment) (l : list Segment) : bool :=
  existsb (fun s => segment_eqb s e) l.

(** [polygon.remove(edge)]. *)
Fixpoint segment_remove (e : Segment) (l : list Segment) : list Segment :=
  match l with
  | [] => []
  | s :: t => if segment_eqb s e then t else s :: segment_remove e t
  end.

(** [if edge in polygon: polygon.remove(edge) else: polygon.add(edge)]. *)
Definition toggle_edge (polygon : list Segment) (e : Segment) : list Segment :=
  if segment_mem e polygon then segment_remove e polygon else polygon ++ [e].

(** The loop over [bad_triangles] building [polygon]. *)
Fixpoint boundary_polygon (polygon : list Segment) (bad : list Triangle)
  : result (list Segment) :=
  match bad with
  | [] => Ok polygon
  | t :: rest =>
      edges <- triangle_edges t ;;
      boundary_polygon (fold_left toggle_edge edges polygon) rest
  end.

(** [t in s] for a set of triangles. *)
Definition triangle_mem (t : Triangle) (s : list Triangle) : bool :=
  existsb (fun u => triangle_eqb u t) s.

(** [s.add(t)] for a set of triangles. *)
Definition triangle_add (s : list Triangle) (t : Triangle) : list Triangle :=
  if triangle_mem t s then s else s ++ [t].

(** One iteration of [for p in points:]. *)
Definition insert_point (triangulation : list Triangle) (p : Point)
  : result (list Triangle) :=
  bad_triangles <- filterM (fun t => c <- from_triangle t ;;
                                     circle_strictly_contains c p) triangulation ;;
  polygon <- boundary_polygon [] bad_triangles ;;
  let kept := filter (fun t => negb (triangle_mem t bad_triangles)) triangulation in
  let added := fold_left triangle_add
                 (map (fun e => mkTriangle (sp1 e) (sp2 e) p) polygon) [] in
  Ok (fold_left triangle_add added kept).

Fixpoint insert_points (triangulation : list Triangle) (points : list Point)
  : result (list Triangle) :=
  match points with
  | [] => Ok triangulation
  | p :: rest => t' <- insert_point triangulation p ;; insert_points t' rest
  end.

(** [triangle.shares_vertex(super_triangle)]: [Triangle] defines no
    attribute [shares_vertex] (plane.py defines [shares_point]), so the
    attribute lookup raises [AttributeError]. *)
Definition call_shares_vertex (t super_triangle : Triangle) : result bool :=
  Err (AttributeError "shares_vertex").

(** [min(points, key=key)]: the first item with the smallest key. *)
Definition min_by (key : Point -> Q) (l : list Point) : result Point :=
  match l with
  | [] => Err ValueError
  | h :: t => Ok (fold_left (fun m q => if Qlt_bool (key q) (key m) then q else m) t h)
  end.

(** [max(points, key=key)]: the first item with the greatest key. *)
Definition max_by (key : Point -> Q) (l : list Point) : result Point :=
  match l with
  | [] => Err ValueError
  | h :: t => Ok (fold_left (fun m q => if Qlt_bool (key m) (key q) then q else m) t h)
  end.

(** The super-triangle.  [Line.intersection] answers [None] only for equal
    slopes; here the two slopes have opposite signs.  A [None] apex would be
    stored as [p3] and the first [c.y] in [Circle.from_triangle] would raise
    [AttributeError]. *)
Definition super_triangle_of (points : list Point) : result Triangle :=
  min_x <- min_by px points ;;
  max_x <- max_by px points ;;
  min_y <- min_by py points ;;
  max_y <- max_by py points ;;
  super_triangle_line1 <- from_two_points (mkPoint (px min_x - 1) (py min_y - 1))
                                          (mkPoint (px min_x) (py max_y + 1)) ;;
  super_triangle_line2 <- from_two_points (mkPoint (px max_x + 1) (py min_y - 1))
                                          (mkPoint (px max_x) (py max_y + 1)) ;;
  apex <- intersection super_triangle_line1 super_triangle_line2 ;;
  match apex with
  | Some c => Ok (mkTriangle (mkPoint (px min_x - 1) (py min_y - 1))
                             (mkPoint (px max_x + 1) (py min_y - 1)) c)
  | None => Err (AttributeError "y")
  end.

(** The part of [delaunay_triangulation] before its final filter: the
    super-triangle and the triangulation after every insertion. *)
Definition delaunay_loop (points : list Point) : result (Triangle * list Triangle) :=
  super_triangle <- super_triangle_of points ;;
  triangulation <- insert_points [super_triangle] points ;;
  Ok (super_triangle, triangulation).

(** [delaunay_triangulation]. *)
Definition delaunay_triangulation (points : list Point) : result (list Triangle) :=
  if Nat.leb (List.length points) 2 then Ok []
  else
    r <- delaunay_loop points ;;
    let super_triangle := fst r in
    let triangulation := snd r in
    sharing <- filterM (fun t => call_shares_vertex t super_triangle) triangulation ;;
    Ok (filter (fun t => negb (triangle_mem t sharing)) triangulation).

(** ** [voronoi_diagram] *)

(** [Ray]: an origin and a direction angle (a real number). *)
Record Ray : Type := mkRay { rp : Point; rangle : R }.

(** A [dict] keyed by segments: an association list in insertion order.
    A lookup compares the stored key with the given one. *)
Definition dict (V : Type) : Type := list (Segment * V).

Fixpoint dict_get {V : Type} (d : dict V) (k : Segment) : option V :=
  match d with
  | [] => None
  | (k', v) :: rest => if segment_eqb k' k then Some v else dict_get rest k
  end.

(** [d[k] = v]: an existing equal key keeps its place and its key object. *)
Fixpoint dict_set {V : Type} (d : dict V) (k : Segment) (v : V) : dict V :=
  match d with
  | [] => [(k, v)]
  | (k', v') :: rest =>
      if segment_eqb k' k then (k', v) :: rest else (k', v') :: dict_set rest k v
  end.

(** The state of the first loop: [circumcenters1], [circumcenters2] and
    [edge_below_point]. *)
Record dual_state : Type := mkDual {
  circumcenters1 : dict Point;
  circumcenters2 : dict Point;
  edge_below_point : dict bool }.

(** [try: _ = circumcenters1[edge]; circumcenters2[edge] = circumcenter
     except KeyError: circumcenters1[edge] = circumcenter]. *)
Definition record_edge (cc : Point) (st : dual_state) (edge : Segment) : dual_state :=
  match dict_get (circumcenters1 st) edge with
  | Some _ => mkDual (circumcenters1 st) (dict_set (circumcenters2 st) edge cc)
                     (edge_below_point st)
  | None => mkDual (dict_set (circumcenters1 st) edge cc) (circumcenters2 st)
                   (edge_below_point st)
  end.

(** [Line.from_two_points(p, q).is_strictly_below(r)]. *)
Definition below_of (p q r : Point) : result bool :=
  l <- from_two_points p q ;; is_strictly_below l r.

(** The body of [for triangle in triangles:]. *)
Definition dual_triangle (st : dual_state) (t : Triangle) : result dual_state :=
  let p1 := tp1 t in
  let p2 := tp2 t in
  let p3 := tp3 t in
  circumcircle <- from_triangle t ;;
  let circumcenter := mkPoint (ch circumcircle) (ck circumcircle) in
  e0 <- Segment_new p1 p2 ;;
  e1 <- Segment_new p2 p3 ;;
  e2 <- Segment_new p3 p1 ;;
  b0 <- below_of p1 p2 p3 ;;
  b1 <- below_of p2 p3 p1 ;;
  b2 <- below_of p3 p1 p2 ;;
  let ebp := dict_set (dict_set (dict_set (edge_below_point st) e0 b0) e1 b1) e2 b2 in
  Ok (fold_left (record_edge circumcenter)
        [e0; e1; e2] (mkDual (circumcenters1 st) (circumcenters2 st) ebp)).

Fixpoint dual_triangles (st : dual_state) (ts : list Triangle) : result dual_state :=
  match ts with
  | [] => Ok st
  | t :: rest => st' <- dual_triangle st t ;; dual_triangles st' rest
  end.

(** The steps of the first loop of [voronoi_diagram]: one entry of
    [edge_below_point.update(...)], and the [try]/[except] on one edge. *)
Inductive dual_op : Type :=
| UpdateBelow (edge : Segment) (b : bool)
| RecordEdge (cc : Point) (edge : Segment).

Definition apply_op (st : dual_state) (op : dual_op) : dual_state :=
  match op with
  | UpdateBelow edge b =>
      mkDual (circumcenters1 st) (circumcenters2 st) (dict_set (edge_below_point st) edge b)
  | RecordEdge cc edge => record_edge cc st edge
  end.

(** The direction of the ray on the perpendicular [line], pointing away
    from the triangle ([below] is [edge_below_point[edge]]). *)
Definition ray_angle (line : Line) (below : bool) : result R :=
  if Qeq_bool (la line) 0 then Ok (if below then PI else 0%R)
  else if Qeq_bool (lb line) 0 then Ok (if below then (3 * PI / 2)%R else (PI / 2)%R)
  else
    match slope line with
    | Some m =>
        let angle := if Qle_bool 0 m then atan (Q2R m)
                     else (PI - Rabs (atan (Q2R m)))%R in
        Ok (if below then (PI + angle)%R else angle)
    | None => Err TypeError
    end.

(** [segments.add(...)] and [rays.add(...)]: the lists hold every emitted
    value in order; equal values collapse in the Python sets, which have
    the same members. *)
Fixpoint emit_dual (c2 : dict Point) (ebp : dict bool) (items : dict Point)
  : result (list Segment * list Ray) :=
  match items with
  | [] => Ok ([], [])
  | (edge, point) :: rest =>
      here <- (match dict_get c2 edge with
               | Some other_point =>
                   s <- Segment_new point other_point ;; Ok ([s], [])
               | None =>
                   let mid := midpoint (sp1 edge) (sp2 edge) in
                   l <- from_two_points (sp1 edge) (sp2 edge) ;;
                   ol <- orthogonal_line l mid ;;
                   match ol with
                   | None => Err (AttributeError "a")
                   | Some line =>
                       match dict_get ebp edge with
                       | None => Err KeyError
                       | Some below =>
                           angle <- ray_angle line below ;;
                           Ok ([], [mkRay point angle])
                       end
                   end
               end) ;;
      more <- emit_dual c2 ebp rest ;;
      Ok (fst here ++ fst more, snd here ++ snd more)
  end.

(** [voronoi_diagram]. *)
Definition voronoi_diagram (points : list Point) : result (list Segment * list Ray) :=
  if Nat.leb (List.length points) 2 then Ok ([], [])
  else
    triangles <- delaunay_triangulation points ;;
    st <- dual_triangles (mkDual [] [] []) triangles ;;
    emit_dual (circumcenters2 st) (edge_below_point st) (circumcenters1 st).

(** * Properties *)

(** ** Rational helpers *)

Lemma Qlt_bool_iff (a b : Q) : Qlt_bool a b = true <-> a < b.
Proof.
  unfold Qlt_bool; rewrite negb_true_iff; split; intro H.
  - apply Qnot_le_lt; intro H'; apply Qle_bool_iff in H'; congruence.
  - destruct (Qle_bool b a) eqn:E; [|reflexivity].
    apply Qle_bool_iff in E; exfalso; apply (Qlt_not_le _ _ H E).
Qed.

Lemma Qlt_bool_false (a b : Q) : Qlt_bool a b = false <-> b <= a.
Proof.
  unfold Qlt_bool; rewrite negb_false_iff; apply Qle_bool_iff.
Qed.

Lemma Qeq_bool_false_iff (a b : Q) : Qeq_bool a b = false <-> ~ a == b.
Proof.
  split; intro H.
  - intro E; apply Qeq_bool_iff in E; congruence.
  - destruct (Qeq_bool a b) eqn:E; [|reflexivity].
    apply Qeq_bool_iff in E; contradiction.
Qed.

Lemma qdiv_ok (n d : Q) : ~ d == 0 -> qdiv n d = Ok (n / d).
Proof.
  intro H; unfold qdiv; apply Qeq_bool_false_iff in H; rewrite H; reflexivity.
Qed.

Lemma point_eqb_true (p q : Point) :
  point_eqb p q = true <-> px p == px q /\ py p == py q.
Proof.
  unfold point_eqb; rewrite andb_true_iff, !Qeq_bool_iff; tauto.
Qed.

(** A line of the data model: [a] and [b] are not both zero. *)
Definition wf_line (l : Line) : Prop := ~ la l == 0 \/ ~ lb l == 0.

(** ** C5: coincident points are rejected by [Segment] and [Line] *)

(** Claim C5: constructing a [Segment] or calling [Line.from_two_points]
    fails with the geometry exception exactly when the two points are equal
    ([p1 == p2]); for distinct points both constructions succeed. *)
Theorem segment_line_reject_coincident (p1 p2 : Point) :
  (px p1 == px p2 /\ py p1 == py p2 ->
     (exists msg, Segment_new p1 p2 = Err (GeometryException msg)) /\
     (exists msg, from_two_points p1 p2 = Err (GeometryException msg))) /\
  (~ (px p1 == px p2 /\ py p1 == py p2) ->
     Segment_new p1 p2 = Ok (mkSegment p1 p2) /\
     exists l, from_two_points p1 p2 = Ok l).
Proof.
  split.
  - intro H; apply point_eqb_true in H.
    unfold Segment_new, from_two_points; rewrite H; split; eexists; reflexivity.
  - intro H.
    assert (E : point_eqb p1 p2 = false).
    { destruct (point_eqb p1 p2) eqn:E; [|reflexivity].
      apply point_eqb_true in E; contradiction. }
    unfold Segment_new, from_two_points; rewrite E; split; [reflexivity|].
    destruct (Qeq_bool (px p1) (px p2)); eexists; reflexivity.
Qed.

Lemma solve_linear (a x r : Q) : ~ a == 0 -> a * x + r == 0 -> x == - r / a.
Proof.
  intros Ha H.
  assert (E : x == (a * x + r - r) / a) by (field; assumption).
  rewrite E, H; field; assumption.
Qed.

(** On a vertical line ([b == 0]) the abscissa is [-c / a]. *)
Lemma vertical_abscissa (l : Line) (x y : Q) :
  lb l == 0 -> ~ la l == 0 -> la l * x + lb l * y + lc l == 0 -> x == - lc l / la l.
Proof.
  intros Eb Ha H.
  assert (E : la l * x + (lb l * y + lc l) == 0)
    by (transitivity (la l * x + lb l * y + lc l); [ring | exact H]).
  apply solve_linear in E; [|assumption].
  rewrite E, Eb; field; assumption.
Qed.

(** On a non-vertical line the ordinate at [x] is [-(x a + c) / b]. *)
Lemma line_ordinate (l : Line) (x y : Q) :
  ~ lb l == 0 -> la l * x + lb l * y + lc l == 0 -> y == - (x * la l + lc l) / lb l.
Proof.
  intros Hb H.
  assert (E : lb l * y + (x * la l + lc l) == 0)
    by (transitivity (la l * x + lb l * y + lc l); [ring | exact H]).
  apply solve_linear in E; assumption.
Qed.

(** ** C6: [Line.is_strictly_below] *)

(** Claim C6: for a line of the data model and any point [p],
    [is_strictly_below] returns a boolean without error; it is true iff the
    point of the line at abscissa [p.x] (at ordinate [p.y] for a vertical
    line) has a coordinate strictly smaller than [p]'s; and it is false for
    every point on the line. *)
Theorem is_strictly_below_spec (l : Line) (p : Point) (Hl : wf_line l) :
  exists r, is_strictly_below l p = Ok r /\
    (r = true <->
       (if Qeq_bool (lb l) 0
        then exists x, line_contains l (mkPoint x (py p)) = true /\ x < px p
        else exists y, line_contains l (mkPoint (px p) y) = true /\ y < py p)) /\
    (line_contains l p = true -> r = false).
Proof.
  unfold is_strictly_below, line_contains; simpl.
  destruct (Qeq_bool (lb l) 0) eqn:Eb.
  - apply Qeq_bool_iff in Eb.
    assert (Ha : ~ la l == 0) by (destruct Hl; [assumption | contradiction]).
    rewrite (qdiv_ok _ _ Ha); simpl.
    eexists; split; [reflexivity|]; split.
    + rewrite Qlt_bool_iff; split.
      * intro H; exists (- lc l / la l); split; [|assumption].
        apply Qeq_bool_iff; rewrite Eb; field; assumption.
      * intros [x [Hx Hlt]]; apply Qeq_bool_iff in Hx.
        rewrite <- (vertical_abscissa l x (py p) Eb Ha Hx); assumption.
    + intro H; apply Qeq_bool_iff in H.
      apply Qlt_bool_false.
      rewrite (vertical_abscissa l (px p) (py p) Eb Ha H); apply Qle_refl.
  - apply Qeq_bool_false_iff in Eb.
    rewrite (qdiv_ok _ _ Eb); simpl.
    eexists; split; [reflexivity|]; split.
    + rewrite Qlt_bool_iff; split.
      * intro H; exists (- (px p * la l + lc l) / lb l); split; [|assumption].
        apply Qeq_bool_iff; field; assumption.
      * intros [y [Hy Hlt]]; apply Qeq_bool_iff in Hy.
        rewrite <- (line_ordinate l (px p) y Eb Hy); assumption.
    + intro H; apply Qeq_bool_iff in H.
      apply Qlt_bool_false.
      rewrite (line_ordinate l (px p) (py p) Eb H); apply Qle_refl.
Qed.

(** ** C7: [Line.intersection] *)

Lemma intersection_on_both (l1 l2 line : Line) (y : Q) :
  ~ la l2 * lb l1 - la l1 * lb l2 == 0 ->
  y == (la l1 * lc l2 - la l2 * lc l1) / (la l2 * lb l1 - la l1 * lb l2) ->
  (line = l1 \/ line = l2) -> ~ la line == 0 ->
  line_contains l1 (mkPoint (- lb line * y / la line - lc line / la line) y) = true /\
  line_contains l2 (mkPoint (- lb line * y / la line - lc line / la line) y) = true.
Proof.
  intros HD Hy Hline Ha; unfold line_contains; simpl.
  rewrite !Qeq_bool_iff, Hy.
  destruct Hline as [-> | ->]; split; field; auto.
Qed.

Lemma Qmult_neq_0 (a b : Q) : ~ a == 0 -> ~ b == 0 -> ~ a * b == 0.
Proof.
  intros Ha Hb E; apply Qmult_integral in E; tauto.
Qed.

(** Claim C7: for two lines of the data model, [intersection] answers
    [None] when the slopes are equal (parallel or coincident lines, and any
    two vertical lines), and otherwise a point that lies on both lines. *)
Theorem intersection_spec (l1 l2 : Line) (H1 : wf_line l1) (H2 : wf_line l2) :
  (slope_eqb (slope l1) (slope l2) = true -> intersection l1 l2 = Ok None) /\
  (lb l1 == 0 -> lb l2 == 0 -> intersection l1 l2 = Ok None) /\
  (slope_eqb (slope l1) (slope l2) = false ->
     exists q, intersection l1 l2 = Ok (Some q) /\
       line_contains l1 q = true /\ line_contains l2 q = true).
Proof.
  split; [|split].
  - intro E; unfold intersection; rewrite E; reflexivity.
  - intros E1 E2; unfold intersection, slope.
    apply Qeq_bool_iff in E1; apply Qeq_bool_iff in E2.
    rewrite E1, E2; reflexivity.
  - intro E; unfold intersection; rewrite E.
    (* the denominator of [y] and the [a] of the chosen line are non-zero *)
    assert (HD : ~ la l2 * lb l1 - la l1 * lb l2 == 0 /\
                 ~ la (if negb (Qeq_bool (la l1) 0) then l1 else l2) == 0).
    { unfold slope in E.
      destruct (Qeq_bool (lb l1) 0) eqn:B1, (Qeq_bool (lb l2) 0) eqn:B2;
        simpl in E; try discriminate.
      - apply Qeq_bool_iff in B1; apply Qeq_bool_false_iff in B2.
        assert (A1 : ~ la l1 == 0) by (destruct H1; [assumption | contradiction]).
        split.
        + rewrite B1; intro Z; apply (Qmult_neq_0 _ _ A1 B2).
          transitivity (- (la l2 * 0 - la l1 * lb l2)); [ring | rewrite Z; reflexivity].
        + apply Qeq_bool_false_iff in A1; rewrite A1; simpl.
          apply Qeq_bool_false_iff; assumption.
      - apply Qeq_bool_false_iff in B1; apply Qeq_bool_iff in B2.
        assert (A2 : ~ la l2 == 0) by (destruct H2; [assumption | contradiction]).
        split.
        + rewrite B2; intro Z; apply (Qmult_neq_0 _ _ A2 B1).
          transitivity (la l2 * lb l1 - la l1 * 0); [ring | rewrite Z; reflexivity].
        + destruct (Qeq_bool (la l1) 0) eqn:A1; simpl; [assumption|].
          apply Qeq_bool_false_iff; assumption.
      - apply Qeq_bool_false_iff in B1; apply Qeq_bool_false_iff in B2.
        apply Qeq_bool_false_iff in E.
        split.
        + intro Z; apply E.
          assert (Z' : la l1 * lb l2 == la l2 * lb l1).
          { transitivity (la l1 * lb l2 + (la l2 * lb l1 - la l1 * lb l2));
              [rewrite Z; ring | ring]. }
          transitivity (- (la l1 * lb l2) / (lb l1 * lb l2)); [field; auto|].
          rewrite Z'; field; auto.
        + destruct (Qeq_bool (la l1) 0) eqn:A1; simpl; [|apply Qeq_bool_false_iff; assumption].
          intro A2; apply E.
          apply Qeq_bool_iff in A1; rewrite A1, A2; field; auto. }
    destruct HD as [HD Ha].
    rewrite (qdiv_ok _ _ HD); simpl.
    rewrite (qdiv_ok _ _ Ha); simpl.
    rewrite (qdiv_ok _ _ Ha); simpl.
    eexists; split; [reflexivity|].
    apply intersection_on_both; auto; [reflexivity|].
    destruct (negb (Qeq_bool (la l1) 0)); auto.
Qed.

(** ** Concrete inputs *)

Definition pt (a b : Z) : Point := mkPoint (inject_Z a) (inject_Z b).

(** The lines [y = x] and [x + y = 2]. *)
Definition diagonal : Line := mkLine 1 (-1) 0.
Definition antidiagonal : Line := mkLine 1 1 (-2).

Lemma is_strictly_below_spec_witness :
  wf_line diagonal /\
  exists r, is_strictly_below diagonal (pt 0 1) = Ok r /\
    (r = true <->
       (if Qeq_bool (lb diagonal) 0
        then exists x, line_contains diagonal (mkPoint x (py (pt 0 1))) = true /\ x < px (pt 0 1)
        else exists y, line_contains diagonal (mkPoint (px (pt 0 1)) y) = true /\ y < py (pt 0 1))) /\
    (line_contains diagonal (pt 0 1) = true -> r = false).
Proof.
  assert (Hl : wf_line diagonal) by (left; intro E; vm_compute in E; discriminate E).
  split; [exact Hl | exact (is_strictly_below_spec diagonal (pt 0 1) Hl)].
Defined.

Lemma intersection_spec_witness :
  wf_line diagonal /\ wf_line antidiagonal /\
  (slope_eqb (slope diagonal) (slope antidiagonal) = true ->
     intersection diagonal antidiagonal = Ok None) /\
  (lb diagonal == 0 -> lb antidiagonal == 0 -> intersection diagonal antidiagonal = Ok None) /\
  (slope_eqb (slope diagonal) (slope antidiagonal) = false ->
     exists q, intersection diagonal antidiagonal = Ok (Some q) /\
       line_contains diagonal q = true /\ line_contains antidiagonal q = true).
Proof.
  assert (H1 : wf_line diagonal) by (left; intro E; vm_compute in E; discriminate E).
  assert (H2 : wf_line antidiagonal) by (left; intro E; vm_compute in E; discriminate E).
  split; [exact H1 | split; [exact H2 | exact (intersection_spec diagonal antidiagonal H1 H2)]].
Defined.

(** ** C8: small inputs *)

(** Claim C8: [convex_hull] returns a collection of at most 3 points as it
    is (so at most 2 points come back unchanged), whatever the order of
    iteration of the sets it would build. *)
Theorem convex_hull_small (order : set_order) (points : list Point) :
  (List.length points <= 3)%nat -> convex_hull order points = Ok points.
Proof.
  intro H; unfold convex_hull.
  apply Nat.leb_le in H; rewrite H; reflexivity.
Qed.

Lemma convex_hull_small_witness :
  (List.length [pt 0 0; pt 1 0; pt 0 1] <= 3)%nat /\
  convex_hull insertion_order [pt 0 0; pt 1 0; pt 0 1] = Ok [pt 0 0; pt 1 0; pt 0 1].
Proof.
  split; [simpl; lia|].
  apply (convex_hull_small insertion_order [pt 0 0; pt 1 0; pt 0 1]); simpl; lia.
Defined.

(** ** The error monad *)

Lemma bind_ok {A B : Type} (m : result A) (k : A -> result B) (b : B) :
  bind m k = Ok b -> exists a, m = Ok a /\ k a = Ok b.
Proof.
  destruct m as [a|e]; simpl; [intro H; exists a; auto | discriminate].
Qed.

Ltac inv_bind H :=
  let a := fresh "a" in
  let Ha := fresh "Ha" in
  apply bind_ok in H; destruct H as [a [Ha H]].

(** ** The final filter of [delaunay_triangulation] *)

(** Whatever the input, [delaunay_triangulation] never returns a triangle:
    the lookup of [shares_vertex] raises on the first triangle left. *)
Lemma delaunay_ok_nil (points : list Point) (T : list Triangle) :
  delaunay_triangulation points = Ok T -> T = [].
Proof.
  unfold delaunay_triangulation.
  destruct (Nat.leb (List.length points) 2).
  - intro H; inversion H; reflexivity.
  - intro H; inv_bind H; destruct a as [super ts]; cbn zeta in H; simpl in H.
    inv_bind H.
    destruct ts as [|t rest]; simpl in Ha0.
    + inversion Ha0; subst; simpl in H; inversion H; reflexivity.
    + discriminate.
Qed.

(** ** C1: the empty-circumcircle property of the returned triangulation *)

(** Claim C1 (code defect): on the three points (0,0), (1,0), (0,1), whose
    Delaunay triangulation is the triangle they form, [delaunay_triangulation]
    raises [AttributeError] instead of returning it: the insertion loop
    builds that triangle (sharing no vertex with the super-triangle), and
    the final filter calls the missing method [shares_vertex]. *)
Theorem delaunay_raises_attribute_error :
  delaunay_triangulation [pt 0 0; pt 1 0; pt 0 1] = Err (AttributeError "shares_vertex") /\
  match delaunay_loop [pt 0 0; pt 1 0; pt 0 1] with
  | Ok (super, ts) =>
      triangle_mem (mkTriangle (pt 0 0) (pt 1 0) (pt 0 1)) ts = true /\
      shares_point (mkTriangle (pt 0 0) (pt 1 0) (pt 0 1)) super = false
  | Err _ => False
  end.
Proof.
  split; vm_compute; [reflexivity | split; reflexivity].
Qed.

(** ** C2: collinear points *)

(** Three points on one line. *)
Definition collinear (a b c : Point) : Prop :=
  (px b - px a) * (py c - py a) - (py b - py a) * (px c - px a) == 0.

(** Claim C2 fails as stated: the code has no degenerate-input error.  For
    the collinear points (0,0), (1,0), (2,0), [Circle.from_triangle] fails
    with the division error of [s.x / d1], and [delaunay_triangulation]
    raises the same [AttributeError] as it does on the non-degenerate
    points (0,0), (1,0), (0,1). *)
Lemma collinear_not_reported_as_degenerate :
  from_triangle (mkTriangle (pt 0 0) (pt 1 0) (pt 2 0)) = Err ZeroDivisionError /\
  delaunay_triangulation [pt 0 0; pt 1 0; pt 2 0] = Err (AttributeError "shares_vertex") /\
  delaunay_triangulation [pt 0 0; pt 1 0; pt 0 1] = Err (AttributeError "shares_vertex").
Proof.
  split; [|split]; vm_compute; reflexivity.
Qed.

(** Claim C2, as amended: for three collinear points [Circle.from_triangle]
    raises [ZeroDivisionError] (its determinant [d1] is 0) instead of
    returning a circle, and [delaunay_triangulation] on those three points
    never returns a triangle. *)
Theorem collinear_circumcircle_fails (a b c : Point) (H : collinear a b c) :
  from_triangle (mkTriangle a b c) = Err ZeroDivisionError /\
  forall T, delaunay_triangulation [a; b; c] = Ok T -> T = [].
Proof.
  split; [|intro T; apply delaunay_ok_nil].
  unfold from_triangle, qdiv; simpl.
  assert (D : px a * (py b - py c) - px b * (py a - py c) + px c * (py a - py b) == 0).
  { unfold collinear in H; rewrite <- H; ring. }
  apply Qeq_bool_iff in D; rewrite D; reflexivity.
Qed.

Lemma collinear_circumcircle_fails_witness :
  collinear (pt 0 0) (pt 1 0) (pt 2 0) /\
  from_triangle (mkTriangle (pt 0 0) (pt 1 0) (pt 2 0)) = Err ZeroDivisionError.
Proof.
  assert (H : collinear (pt 0 0) (pt 1 0) (pt 2 0)) by (vm_compute; reflexivity).
  split; [exact H|].
  exact (proj1 (collinear_circumcircle_fails (pt 0 0) (pt 1 0) (pt 2 0) H)).
Defined.

(** ** C10: co-circular points in [voronoi_diagram] *)

Definition unit_square : list Point := [pt 0 0; pt 1 0; pt 1 1; pt 0 1].

(** Claim C10 (code defect, the one of C1): on the four co-circular points
    of the unit square, [voronoi_diagram] raises the [AttributeError] of
    [delaunay_triangulation] and never reaches the [Segment] check.  The
    triangles the insertion loop leaves away from the super-triangle (found
    with [shares_point]) share the diagonal and have one circumcenter, and
    the segment loop run on them raises the [Segment] exception. *)
Theorem voronoi_cocircular_raises_attribute_error :
  voronoi_diagram unit_square = Err (AttributeError "shares_vertex") /\
  match delaunay_loop unit_square with
  | Ok (super, ts) =>
      match dual_triangles (mkDual [] [] [])
              (filter (fun t => negb (shares_point t super)) ts) with
      | Ok d => exists msg,
          emit_dual (circumcenters2 d) (edge_below_point d) (circumcenters1 d)
          = Err (GeometryException msg)
      | Err _ => False
      end
  | Err _ => False
  end.
Proof.
  split; vm_compute; [reflexivity | eexists; reflexivity].
Qed.

(** ** C4: re-running [convex_hull] on its output *)

Lemma insertion_order_ok : set_order_ok insertion_order.
Proof. intros path l; apply Permutation_refl. Qed.

Lemma inserts_In {A : Type} (a : A) (l1 l2 : list A) :
  In (l1 ++ a :: l2) (inserts a (l1 ++ l2)).
Proof.
  induction l1 as [|b l1 IH]; simpl.
  - destruct l2; left; reflexivity.
  - right; apply in_map; exact IH.
Qed.

(** [orders l] lists every order of the items of [l]. *)
Lemma Permutation_orders {A : Type} (l : list A) :
  forall l', Permutation l' l -> In l' (orders l).
Proof.
  induction l as [|a t IH]; intros l' H.
  - apply Permutation_sym, Permutation_nil in H; subst l'; left; reflexivity.
  - assert (Ha : In a l')
      by (apply (Permutation_in a (Permutation_sym H)); left; reflexivity).
    apply in_split in Ha; destruct Ha as [l1 [l2 ->]].
    assert (P : Permutation (l1 ++ l2) t)
      by exact (Permutation_app_inv l1 l2 [] t a H).
    simpl; apply in_flat_map; exists (l1 ++ l2); split;
      [apply IH, P | apply inserts_In].
Qed.

(** One goal per order [order p X] may give to a list [X] of known items. *)
Ltac split_eqs H :=
  lazymatch type of H with
  | False => destruct H
  | _ \/ _ => let H1 := fresh "Ho" in destruct H as [H1 | H]; [subst | split_eqs H]
  | _ => subst
  end.

Ltac case_order order Hord :=
  match goal with
  | |- context [order ?p ?X] =>
      lazymatch X with context [order _ _] => fail | _ => idtac end;
      let u := fresh "u" in
      let Hu := fresh "Hu" in
      let Ho := fresh "Ho" in
      remember (order p X) as u eqn:Hu;
      assert (Ho : In u (orders X)) by (apply Permutation_orders; rewrite Hu; apply Hord);
      clear Hu; cbn [orders inserts flat_map map app In] in Ho;
      split_eqs Ho
  end.

(** Runs [convex_hull] on known points for every order of the sets it
    builds. *)
Ltac hull_step order Hord :=
  (progress cbn [find_hull]) || case_order order Hord.

Ltac run_hull order Hord :=
  unfold convex_hull;
  repeat (cbv -[find_hull]; hull_step order Hord); cbv -[find_hull]; reflexivity.

(** Claim C4 (a defect of the code): the triangle test of [find_hull] is
    strict, so a candidate on a side of the triangle [p1],
    [furthest_point], [p2] is passed on to [s1] or [s2] and then put in
    the hull, even when it lies inside the hull.  CPython iterates the set
    of the points (4,4), (4,3), (0,3), (3,0), (2,3) in this order (the
    hashes of small integers are fixed); whatever the order of the sets
    built on the way, [convex_hull] returns all five points, (2,3)
    included, though (2,3) lies strictly inside the triangle (0,3),
    (4,4), (3,0).  The set of the returned points, which CPython iterates
    as (4,3), (4,4), (0,3), (3,0), (2,3), gives a hull without (2,3):
    re-running [convex_hull] on its output does not return the same
    points. *)
Theorem convex_hull_not_idempotent (order : set_order) (Hord : set_order_ok order) :
  convex_hull order [pt 4 4; pt 4 3; pt 0 3; pt 3 0; pt 2 3]
    = Ok [pt 0 3; pt 4 4; pt 4 3; pt 3 0; pt 2 3] /\
  triangle_strictly_contains (mkTriangle (pt 0 3) (pt 4 4) (pt 3 0)) (pt 2 3) = true /\
  Permutation [pt 4 3; pt 4 4; pt 0 3; pt 3 0; pt 2 3]
              [pt 0 3; pt 4 4; pt 4 3; pt 3 0; pt 2 3] /\
  convex_hull order [pt 4 3; pt 4 4; pt 0 3; pt 3 0; pt 2 3]
    = Ok [pt 0 3; pt 4 4; pt 4 3; pt 3 0] /\
  point_mem (pt 2 3) [pt 0 3; pt 4 4; pt 4 3; pt 3 0] = false.
Proof.
  split; [run_hull order Hord|].
  split; [vm_compute; reflexivity|].
  split.
  { eapply perm_trans; [apply perm_swap|].
    eapply perm_trans; [apply perm_skip, perm_swap|].
    apply perm_swap. }
  split; [run_hull order Hord | vm_compute; reflexivity].
Qed.

Lemma convex_hull_not_idempotent_witness :
  set_order_ok insertion_order /\
  convex_hull insertion_order [pt 4 4; pt 4 3; pt 0 3; pt 3 0; pt 2 3]
    = Ok [pt 0 3; pt 4 4; pt 4 3; pt 3 0; pt 2 3] /\
  triangle_strictly_contains (mkTriangle (pt 0 3) (pt 4 4) (pt 3 0)) (pt 2 3) = true /\
  Permutation [pt 4 3; pt 4 4; pt 0 3; pt 3 0; pt 2 3]
              [pt 0 3; pt 4 4; pt 4 3; pt 3 0; pt 2 3] /\
  convex_hull insertion_order [pt 4 3; pt 4 4; pt 0 3; pt 3 0; pt 2 3]
    = Ok [pt 0 3; pt 4 4; pt 4 3; pt 3 0] /\
  point_mem (pt 2 3) [pt 0 3; pt 4 4; pt 4 3; pt 3 0] = false.
Proof.
  split; [exact insertion_order_ok|].
  exact (convex_hull_not_idempotent insertion_order insertion_order_ok).
Defined.

(** ** C9: the direction of the Voronoi rays *)

Definition angle_in_range (r : Ray) : Prop := (0 <= rangle r < 2 * PI)%R.

Lemma atan_nonneg (x : R) : (0 <= x)%R -> (0 <= atan x)%R.
Proof.
  intro H; destruct (Rle_lt_or_eq_dec 0 x H) as [Hlt | <-].
  - pose proof (atan_increasing 0 x Hlt) as A; rewrite atan_0 in A; lra.
  - rewrite atan_0; lra.
Qed.

Lemma atan_neg (x : R) : (x < 0)%R -> (atan x < 0)%R.
Proof.
  intro H; pose proof (atan_increasing x 0 H) as A; rewrite atan_0 in A; exact A.
Qed.

Lemma Q2R_0 : Q2R 0 = 0%R.
Proof. unfold Q2R; simpl; ring. Qed.

(** Every branch of the angle computation lands in [0, 2 pi). *)
Lemma ray_angle_range (line : Line) (below : bool) (a : R) :
  ray_angle line below = Ok a -> (0 <= a < 2 * PI)%R.
Proof.
  pose proof PI_RGT_0 as Hpi.
  unfold ray_angle.
  destruct (Qeq_bool (la line) 0).
  { intro H; inversion H; destruct below; lra. }
  destruct (Qeq_bool (lb line) 0).
  { intro H; inversion H; destruct below; lra. }
  destruct (slope line) as [m|]; [|discriminate].
  intro H; inversion H as [Ha]; clear H.
  pose proof (atan_bound (Q2R m)) as B.
  destruct (Qle_bool 0 m) eqn:Em.
  - apply Qle_bool_iff, Qle_Rle in Em; rewrite Q2R_0 in Em.
    pose proof (atan_nonneg _ Em).
    destruct below; lra.
  - assert (Hn : (Q2R m < 0)%R).
    { rewrite <- Q2R_0; apply Qlt_Rlt; apply Qnot_le_lt.
      intro Hle; apply Qle_bool_iff in Hle; congruence. }
    pose proof (atan_neg _ Hn).
    rewrite Rabs_left by assumption.
    destruct below; lra.
Qed.

Lemma emit_dual_rays (c2 : dict Point) (ebp : dict bool) (items : dict Point)
  (segs : list Segment) (rays : list Ray) :
  emit_dual c2 ebp items = Ok (segs, rays) -> Forall angle_in_range rays.
Proof.
  revert segs rays; induction items as [|[edge point] rest IH]; intros segs rays H.
  - simpl in H; inversion H; constructor.
  - simpl in H.
    apply bind_ok in H; destruct H as [here [Hhere H]].
    apply bind_ok in H; destruct H as [more [Hmore H]].
    inversion H; subst; clear H.
    apply Forall_app; split; [|destruct more; eapply IH; eassumption].
    destruct (dict_get c2 edge) as [other|].
    + apply bind_ok in Hhere; destruct Hhere as [s [_ Hhere]].
      inversion Hhere; constructor.
    + apply bind_ok in Hhere; destruct Hhere as [l [_ Hhere]].
      apply bind_ok in Hhere; destruct Hhere as [ol [_ Hhere]].
      destruct ol as [line|]; [|discriminate].
      destruct (dict_get ebp edge) as [below|]; [|discriminate].
      apply bind_ok in Hhere; destruct Hhere as [ang [Hang Hhere]].
      inversion Hhere; subst; simpl.
      constructor; [|constructor].
      unfold angle_in_range; simpl; eapply ray_angle_range; eassumption.
Qed.

(** Claim C9: every ray of the ray loop of [voronoi_diagram], whatever the
    edges and circumcenters it runs on, has its angle in [0, 2 pi) (the
    vertical and horizontal perpendiculars and the arctangent case); hence
    so has every ray [voronoi_diagram] returns. *)
Theorem voronoi_ray_angles :
  (forall c2 ebp items segs rays,
     emit_dual c2 ebp items = Ok (segs, rays) -> Forall angle_in_range rays) /\
  (forall points segs rays,
     voronoi_diagram points = Ok (segs, rays) -> Forall angle_in_range rays).
Proof.
  split; [exact emit_dual_rays|].
  intros points segs rays H; unfold voronoi_diagram in H.
  destruct (Nat.leb (List.length points) 2).
  - inversion H; constructor.
  - inv_bind H; inv_bind H; eapply emit_dual_rays; eassumption.
Qed.

Definition bottom_edge : Segment := mkSegment (pt 0 0) (pt 2 0).

Lemma voronoi_ray_angles_witness :
  emit_dual [] [(bottom_edge, true)] [(bottom_edge, pt 1 1)]
    = Ok ([], [mkRay (pt 1 1) (3 * PI / 2)%R]) /\
  Forall angle_in_range [mkRay (pt 1 1) (3 * PI / 2)%R].
Proof.
  assert (E : emit_dual [] [(bottom_edge, true)] [(bottom_edge, pt 1 1)]
              = Ok ([], [mkRay (pt 1 1) (3 * PI / 2)%R])) by reflexivity.
  split; [exact E|].
  exact (proj1 voronoi_ray_angles _ _ _ _ _ E).
Defined.

(** ** Lemmas on points and scans *)

Lemma point_eqb_refl (p : Point) : point_eqb p p = true.
Proof. apply point_eqb_true; split; reflexivity. Qed.

Lemma point_eqb_trans (p q r : Point) :
  point_eqb p q = true -> point_eqb q r = true -> point_eqb p r = true.
Proof.
  rewrite !point_eqb_true; intros [H1 H2] [H3 H4]; split.
  - rewrite H1; exact H3.
  - rewrite H2; exact H4.
Qed.

Lemma point_mem_In (p : Point) (l : list Point) : In p l -> point_mem p l = true.
Proof.
  intro H; unfold point_mem; apply existsb_exists; exists p; split;
    [assumption | apply point_eqb_refl].
Qed.

Lemma first_max_In (b : Point * Q) (t : list (Point * Q)) :
  In (first_max b t) (fst b :: map fst t).
Proof.
  revert b; induction t as [|[p k] t IH]; intro b; simpl; [left; reflexivity|].
  destruct (Qlt_bool (snd b) k).
  - specialize (IH (p, k)); simpl in IH; tauto.
  - specialize (IH b); simpl in IH; tauto.
Qed.

Lemma max_by_key_In (key : Point -> result Q) (l : list Point) (m : Point) :
  max_by_key key l = Ok m -> In m l.
Proof.
  unfold max_by_key; intro H.
  apply bind_ok in H; destruct H as [ks [Hks H]].
  assert (E : map fst ks = l).
  { clear H; revert ks Hks; induction l as [|a l IH]; intros ks Hks; simpl in Hks.
    - inversion Hks; reflexivity.
    - apply bind_ok in Hks; destruct Hks as [pk [Hpk Hks]].
      apply bind_ok in Hks; destruct Hks as [rest [Hrest Hks]]; inversion Hks; subst.
      apply bind_ok in Hpk; destruct Hpk as [k [Hk Hpk]]; inversion Hpk; subst.
      simpl; rewrite (IH _ Hrest); reflexivity. }
  destruct ks as [|b t]; [discriminate|]; inversion H; subst.
  apply first_max_In.
Qed.

Lemma Qle_bool_opp (a b : Q) : Qle_bool (- b) (- a) = Qle_bool a b.
Proof.
  apply Bool.eq_iff_eq_true; rewrite !Qle_bool_iff; split; intro H.
  - apply Qopp_le_compat in H; rewrite !Qopp_involutive in H; exact H.
  - apply Qopp_le_compat; exact H.
Qed.

(** A scan that replaces the current item by one of strictly greater key
    is [first_max]. *)
Lemma scan_first_max (key : Point -> Q) (f : Point -> Point -> Point)
  (Hf : forall m q, f m q = if Qlt_bool (key m) (key q) then q else m)
  (rest : list Point) : forall m,
  fold_left f rest m = first_max (m, key m) (map (fun q => (q, key q)) rest).
Proof.
  induction rest as [|q rest IH]; intro m; simpl; [reflexivity|].
  rewrite Hf; destruct (Qlt_bool (key m) (key q)); apply IH.
Qed.

Lemma scan_min_x_step (m q : Point) :
  (if Qlt_bool (px q) (px m) then q else m)
  = if Qlt_bool (- px m) (- px q) then q else m.
Proof. unfold Qlt_bool; rewrite Qle_bool_opp; reflexivity. Qed.


Lemma scan_In (key : Point -> Q) (f : Point -> Point -> Point)
  (Hf : forall m q, f m q = if Qlt_bool (key m) (key q) then q else m)
  (first : Point) (rest : list Point) :
  In (fold_left f rest first) (first :: rest).
Proof.
  rewrite (scan_first_max key f Hf).
  pose proof (first_max_In (first, key first) (map (fun q => (q, key q)) rest)) as H.
  rewrite map_map in H; simpl in H; rewrite map_id in H; exact H.
Qed.


(** * Further properties of the library *)

Lemma Qlt_bool_compat (a a' b b' : Q) :
  a == a' -> b == b' -> Qlt_bool a b = Qlt_bool a' b'.
Proof.
  intros Ha Hb; apply Bool.eq_iff_eq_true; rewrite !Qlt_bool_iff, Ha, Hb; tauto.
Qed.

Lemma Qneq_1_0 : ~ (1 == 0).
Proof. intro E; vm_compute in E; discriminate E. Qed.

Lemma Qneq_m1_0 : ~ (-1 == 0).
Proof. intro E; vm_compute in E; discriminate E. Qed.

(** ** [Line.from_two_points] *)

(** For two different points, [Line.from_two_points] returns a line of the
    data model ([a] and [b] not both zero) that passes through both. *)
Theorem from_two_points_through (p1 p2 : Point) (H : point_eqb p1 p2 = false) :
  exists l, from_two_points p1 p2 = Ok l /\ wf_line l /\
    line_contains l p1 = true /\ line_contains l p2 = true.
Proof.
  unfold from_two_points; rewrite H.
  destruct (Qeq_bool (px p1) (px p2)) eqn:E.
  - apply Qeq_bool_iff in E.
    eexists; split; [reflexivity|]; split; [left; exact Qneq_1_0|].
    unfold line_contains; simpl; rewrite !Qeq_bool_iff; split; [ring|].
    rewrite E; ring.
  - apply Qeq_bool_false_iff in E.
    assert (D : ~ px p2 - px p1 == 0)
      by (intro D; apply E; symmetry; apply Qplus_inj_r with (- px p1);
          rewrite D; ring).
    eexists; split; [reflexivity|]; split; [right; exact Qneq_m1_0|].
    unfold line_contains; simpl; rewrite !Qeq_bool_iff; split; [ring|].
    field; exact D.
Qed.

Lemma from_two_points_through_witness :
  point_eqb (pt 0 0) (pt 1 2) = false /\
  exists l, from_two_points (pt 0 0) (pt 1 2) = Ok l /\ wf_line l /\
    line_contains l (pt 0 0) = true /\ line_contains l (pt 1 2) = true.
Proof.
  assert (H : point_eqb (pt 0 0) (pt 1 2) = false) by reflexivity.
  split; [exact H | exact (from_two_points_through _ _ H)].
Defined.

(** ** [Line.orthogonal_line] *)

(** For a line of the data model, [orthogonal_line l p] answers [None] when
    [p] is off the line; for [p] on the line it returns a line of the data
    model through [p] that is perpendicular to [l] ([a a' + b b' = 0]). *)
Theorem orthogonal_line_spec (l : Line) (p : Point) (Hl : wf_line l) :
  (line_contains l p = false -> orthogonal_line l p = Ok None) /\
  (line_contains l p = true ->
     exists l', orthogonal_line l p = Ok (Some l') /\ wf_line l' /\
       line_contains l' p = true /\ la l * la l' + lb l * lb l' == 0).
Proof.
  unfold orthogonal_line; split; intro Hp; rewrite Hp; simpl; [reflexivity|].
  destruct (Qeq_bool (la l) 0) eqn:Ea.
  - apply Qeq_bool_iff in Ea.
    eexists; split; [reflexivity|]; split; [left; exact Qneq_1_0|].
    unfold line_contains; simpl; rewrite Qeq_bool_iff, Ea; split; ring.
  - destruct (Qeq_bool (lb l) 0) eqn:Eb.
    + apply Qeq_bool_iff in Eb.
      eexists; split; [reflexivity|]; split; [right; exact Qneq_1_0|].
      unfold line_contains; simpl; rewrite Qeq_bool_iff, Eb; split; ring.
    + apply Qeq_bool_false_iff in Ea; apply Qeq_bool_false_iff in Eb.
      unfold slope; rewrite (proj2 (Qeq_bool_false_iff _ _) Eb); simpl.
      assert (Hs : ~ - la l / lb l == 0).
      { intro Z; apply Ea.
        transitivity (- (- la l / lb l) * lb l); [field; exact Eb|].
        rewrite Z; ring. }
      rewrite (qdiv_ok _ _ Hs); simpl.
      eexists; split; [reflexivity|]; split; [right; exact Qneq_m1_0|].
      unfold line_contains; simpl; rewrite Qeq_bool_iff; split; [ring|].
      field; split; assumption.
Qed.

Lemma orthogonal_line_spec_witness :
  wf_line diagonal /\
  (line_contains diagonal (pt 1 1) = false -> orthogonal_line diagonal (pt 1 1) = Ok None) /\
  (line_contains diagonal (pt 1 1) = true ->
     exists l', orthogonal_line diagonal (pt 1 1) = Ok (Some l') /\ wf_line l' /\
       line_contains l' (pt 1 1) = true /\ la diagonal * la l' + lb diagonal * lb l' == 0).
Proof.
  assert (Hl : wf_line diagonal) by (left; exact Qneq_1_0).
  split; [exact Hl | exact (orthogonal_line_spec diagonal (pt 1 1) Hl)].
Defined.

(** ** [Triangle.strictly_contains] *)

(** The final comparison of the barycentric test is false when [s] or [t]
    is zero. *)
Lemma bary_s_zero (d s u : Q) : s == 0 ->
  (if Qlt_bool d 0
   then Qlt_bool s 0 && Qlt_bool u 0 && Qlt_bool d (s + u)
   else Qlt_bool 0 s && Qlt_bool 0 u && Qlt_bool (s + u) d) = false.
Proof.
  intro Hs; rewrite (Qlt_bool_compat s 0 0 0), (Qlt_bool_compat 0 0 s 0) by
    (assumption || reflexivity).
  destruct (Qlt_bool d 0); reflexivity.
Qed.

Lemma bary_u_zero (d s u : Q) : u == 0 ->
  (if Qlt_bool d 0
   then Qlt_bool s 0 && Qlt_bool u 0 && Qlt_bool d (s + u)
   else Qlt_bool 0 s && Qlt_bool 0 u && Qlt_bool (s + u) d) = false.
Proof.
  intro Hu; rewrite (Qlt_bool_compat u 0 0 0), (Qlt_bool_compat 0 0 u 0) by
    (assumption || reflexivity).
  destruct (Qlt_bool d 0); rewrite ?andb_false_r; reflexivity.
Qed.

(** A triangle never strictly contains one of its own vertices. *)
Theorem triangle_not_contains_vertex (t : Triangle) :
  triangle_strictly_contains t (tp1 t) = false /\
  triangle_strictly_contains t (tp2 t) = false /\
  triangle_strictly_contains t (tp3 t) = false.
Proof.
  unfold triangle_strictly_contains; cbv zeta; split; [|split].
  - apply bary_u_zero; ring.
  - apply bary_s_zero; ring.
  - apply bary_s_zero; ring.
Qed.

(** The determinant [d] of the barycentric test is, up to sign, the
    [collinear] expression. *)
Lemma bary_det_collinear (t : Triangle) :
  (py (tp2 t) - py (tp3 t)) * (px (tp1 t) - px (tp3 t))
  + (px (tp3 t) - px (tp2 t)) * (py (tp1 t) - py (tp3 t))
  == (px (tp2 t) - px (tp1 t)) * (py (tp3 t) - py (tp1 t))
     - (py (tp2 t) - py (tp1 t)) * (px (tp3 t) - px (tp1 t)).
Proof. ring. Qed.

Lemma bary_d_zero (d s u : Q) : d == 0 ->
  (if Qlt_bool d 0
   then Qlt_bool s 0 && Qlt_bool u 0 && Qlt_bool d (s + u)
   else Qlt_bool 0 s && Qlt_bool 0 u && Qlt_bool (s + u) d) = false.
Proof.
  intro Hd; rewrite (Qlt_bool_compat d 0 0 0 Hd (Qeq_refl 0)); simpl.
  destruct (Qlt_bool 0 s) eqn:Es; simpl; [|reflexivity].
  destruct (Qlt_bool 0 u) eqn:Eu; simpl; [|reflexivity].
  apply Qlt_bool_iff in Es; apply Qlt_bool_iff in Eu.
  apply Qlt_bool_false; rewrite Hd.
  apply Qlt_le_weak; rewrite <- (Qplus_0_l 0) at 1; apply Qplus_lt_le_compat;
    [assumption | apply Qlt_le_weak; assumption].
Qed.

(** A triangle with collinear vertices strictly contains no point. *)
Theorem collinear_triangle_contains_nothing (t : Triangle) (p : Point)
  (H : collinear (tp1 t) (tp2 t) (tp3 t)) :
  triangle_strictly_contains t p = false.
Proof.
  unfold triangle_strictly_contains; cbv zeta.
  apply bary_d_zero; rewrite bary_det_collinear; exact H.
Qed.

Lemma collinear_triangle_contains_nothing_witness :
  collinear (pt 0 0) (pt 1 1) (pt 2 2) /\
  triangle_strictly_contains (mkTriangle (pt 0 0) (pt 1 1) (pt 2 2)) (pt 1 0) = false.
Proof.
  assert (H : collinear (pt 0 0) (pt 1 1) (pt 2 2)) by (vm_compute; reflexivity).
  split; [exact H | exact (collinear_triangle_contains_nothing
                             (mkTriangle (pt 0 0) (pt 1 1) (pt 2 2)) (pt 1 0) H)].
Defined.

Lemma bary_third (d s u : Q) : ~ d == 0 -> s == d / 3 -> u == d / 3 ->
  (if Qlt_bool d 0
   then Qlt_bool s 0 && Qlt_bool u 0 && Qlt_bool d (s + u)
   else Qlt_bool 0 s && Qlt_bool 0 u && Qlt_bool (s + u) d) = true.
Proof.
  intros Hd Hs Hu.
  rewrite (Qlt_bool_compat s (d / 3) 0 0), (Qlt_bool_compat u (d / 3) 0 0),
    (Qlt_bool_compat 0 0 s (d / 3)), (Qlt_bool_compat 0 0 u (d / 3)),
    (Qlt_bool_compat d d (s + u) (d * (2 # 3))), (Qlt_bool_compat (s + u) (d * (2 # 3)) d d)
    by (rewrite ?Hs, ?Hu; field || reflexivity).
  destruct (Qlt_bool d 0) eqn:E.
  - apply Qlt_bool_iff in E.
    rewrite !andb_true_iff, !Qlt_bool_iff; repeat split.
    + apply Qlt_shift_div_r; [reflexivity|]; rewrite Qmult_0_l; exact E.
    + apply Qlt_shift_div_r; [reflexivity|]; rewrite Qmult_0_l; exact E.
    + apply Qlt_minus_iff.
      setoid_replace (d * (2 # 3) + - d) with ((- d) * (1 # 3)) by ring.
      apply Qmult_lt_0_compat; [|reflexivity].
      apply Qopp_lt_compat in E; exact E.
  - apply Qlt_bool_false in E.
    assert (E' : 0 < d) by (apply Qle_lteq in E; destruct E as [E|E]; [exact E|];
                            exfalso; apply Hd; symmetry; exact E).
    rewrite !andb_true_iff, !Qlt_bool_iff; repeat split.
    + apply Qlt_shift_div_l; [reflexivity|]; rewrite Qmult_0_l; exact E'.
    + apply Qlt_shift_div_l; [reflexivity|]; rewrite Qmult_0_l; exact E'.
    + apply Qlt_minus_iff.
      setoid_replace (d + - (d * (2 # 3))) with (d * (1 # 3)) by ring.
      apply Qmult_lt_0_compat; [exact E'|reflexivity].
Qed.

(** A triangle whose vertices are not collinear strictly contains its
    centroid, whichever orientation its vertices have. *)
Theorem triangle_contains_centroid (t : Triangle)
  (H : ~ collinear (tp1 t) (tp2 t) (tp3 t)) :
  triangle_strictly_contains t
    (mkPoint ((px (tp1 t) + px (tp2 t) + px (tp3 t)) / 3)
             ((py (tp1 t) + py (tp2 t) + py (tp3 t)) / 3)) = true.
Proof.
  unfold triangle_strictly_contains; cbv zeta; simpl.
  apply bary_third.
  - rewrite bary_det_collinear; exact H.
  - field.
  - field.
Qed.

Lemma triangle_contains_centroid_witness :
  ~ collinear (pt 0 0) (pt 3 0) (pt 0 3) /\
  triangle_strictly_contains (mkTriangle (pt 0 0) (pt 3 0) (pt 0 3)) (pt 1 1) = true.
Proof.
  assert (H : ~ collinear (pt 0 0) (pt 3 0) (pt 0 3)) by (intro E; vm_compute in E; discriminate E).
  split; [exact H|].
  exact (triangle_contains_centroid (mkTriangle (pt 0 0) (pt 3 0) (pt 0 3)) H).
Defined.

(** ** [Circle.from_triangle] and [Circle.strictly_contains] *)

Lemma Qsq_nonneg (a : Q) : 0 <= a * a.
Proof.
  destruct (Qlt_le_dec a 0) as [H|H].
  - setoid_replace (a * a) with ((- a) * (- a)) by ring.
    apply Qopp_lt_compat in H; apply Qlt_le_weak in H.
    apply Qmult_le_0_compat; exact H.
  - apply Qmult_le_0_compat; exact H.
Qed.

Lemma Qsq_sum_nonneg (a b : Q) : 0 <= a * a + b * b.
Proof.
  rewrite <- (Qplus_0_l 0); apply Qplus_le_compat; apply Qsq_nonneg.
Qed.

(** A point at distance [r] from the center is not strictly inside. *)
Lemma circle_boundary_not_inside (c : Circle) (v : Point) :
  (ch c - px v) * (ch c - px v) + (ck c - py v) * (ck c - py v) == cr2 c ->
  circle_strictly_contains c v = Ok false.
Proof.
  intro E; unfold circle_strictly_contains.
  assert (N : Qlt_bool (cr2 c) 0 = false)
    by (apply Qlt_bool_false; rewrite <- E; apply Qsq_sum_nonneg).
  rewrite N; cbv zeta.
  assert (F : Qlt_bool ((ch c - px v) * (ch c - px v) + (ck c - py v) * (ck c - py v))
                       (cr2 c) = false)
    by (apply Qlt_bool_false; rewrite E; apply Qle_refl).
  rewrite F; reflexivity.
Qed.

(** For a triangle whose vertices are not collinear, [Circle.from_triangle]
    succeeds, its three vertices lie on the circle ([(x - h)^2 + (y - k)^2 =
    r^2]), and [strictly_contains] is false for each of them. *)
Theorem from_triangle_circumcircle (t : Triangle)
  (H : ~ collinear (tp1 t) (tp2 t) (tp3 t)) :
  exists c, from_triangle t = Ok c /\
    Forall (fun v => (ch c - px v) * (ch c - px v) + (ck c - py v) * (ck c - py v)
                     == cr2 c) (triangle_points t) /\
    Forall (fun v => circle_strictly_contains c v = Ok false) (triangle_points t).
Proof.
  destruct t as [a b c]; unfold collinear in H; simpl in H.
  set (d1 := px a * (py b - py c) - px b * (py a - py c) + px c * (py a - py b)).
  assert (D : ~ d1 == 0).
  { intro Z; apply H; rewrite <- Z; unfold d1; ring. }
  unfold from_triangle; cbv zeta; simpl.
  fold d1.
  rewrite (qdiv_ok _ _ D); simpl.
  rewrite (qdiv_ok _ _ D); simpl.
  rewrite (qdiv_ok _ _ D); simpl.
  rewrite (qdiv_ok _ _ (Qmult_neq_0 _ _ D D)); simpl.
  eexists; split; [reflexivity|].
  match goal with |- Forall ?P ?l /\ _ => assert (On : Forall P l) end.
  { unfold triangle_points, dot, d1; simpl.
    repeat constructor; simpl; field; exact D. }
  split; [exact On|].
  apply Forall_forall; intros v Hv.
  apply circle_boundary_not_inside.
  rewrite Forall_forall in On; exact (On v Hv).
Qed.

Lemma from_triangle_circumcircle_witness :
  ~ collinear (pt 0 0) (pt 1 0) (pt 0 1) /\
  exists c, from_triangle (mkTriangle (pt 0 0) (pt 1 0) (pt 0 1)) = Ok c /\
    Forall (fun v => (ch c - px v) * (ch c - px v) + (ck c - py v) * (ck c - py v)
                     == cr2 c) (triangle_points (mkTriangle (pt 0 0) (pt 1 0) (pt 0 1))) /\
    Forall (fun v => circle_strictly_contains c v = Ok false)
           (triangle_points (mkTriangle (pt 0 0) (pt 1 0) (pt 0 1))).
Proof.
  assert (H : ~ collinear (pt 0 0) (pt 1 0) (pt 0 1)) by (intro E; vm_compute in E; discriminate E).
  split; [exact H|].
  exact (from_triangle_circumcircle (mkTriangle (pt 0 0) (pt 1 0) (pt 0 1)) H).
Defined.

(** ** Equality of segments and triangles, [Triangle.shares_point] *)

Lemma point_eqb_sym (p q : Point) : point_eqb p q = point_eqb q p.
Proof.
  apply Bool.eq_iff_eq_true; rewrite !point_eqb_true.
  split; intros [H1 H2]; split; symmetry; assumption.
Qed.

Lemma point_eqb_via (x y z : Point) :
  point_eqb x z = true -> point_eqb y z = true -> point_eqb x y = true.
Proof.
  intros H1 H2; rewrite point_eqb_sym in H2; eapply point_eqb_trans; eassumption.
Qed.

Lemma point_eqb_via' (x y z : Point) :
  point_eqb z x = true -> point_eqb z y = true -> point_eqb x y = true.
Proof.
  intros H1 H2; rewrite point_eqb_sym in H1; eapply point_eqb_trans; eassumption.
Qed.

(** Two equalities that force one of the [point_eqb _ _ = false]
    hypotheses to be true. *)
Ltac eqb_conflict :=
  match goal with
  | N : point_eqb ?x ?y = false, H1 : point_eqb ?x ?z = true,
    H2 : point_eqb ?y ?z = true |- _ =>
      rewrite (point_eqb_via x y z H1 H2) in N; discriminate N
  | N : point_eqb ?x ?y = false, H1 : point_eqb ?z ?x = true,
    H2 : point_eqb ?z ?y = true |- _ =>
      rewrite (point_eqb_via' x y z H1 H2) in N; discriminate N
  end.

(** [Triangle.shares_point] is symmetric. *)
Theorem shares_point_sym (t u : Triangle) : shares_point t u = shares_point u t.
Proof.
  destruct t as [a b c], u as [x y z]; unfold shares_point, point_mem; simpl.
  rewrite !orb_false_r.
  rewrite (point_eqb_sym a x), (point_eqb_sym a y), (point_eqb_sym a z),
          (point_eqb_sym b x), (point_eqb_sym b y), (point_eqb_sym b z),
          (point_eqb_sym c x), (point_eqb_sym c y), (point_eqb_sym c z).
  apply Bool.eq_iff_eq_true; rewrite !orb_true_iff; tauto.
Qed.

(** [Segment.__eq__] compares point sets by inclusion; on segments built by
    the constructor (two different points) it is symmetric. *)
Theorem segment_eq_sym (a b c d : Point) (s s' : Segment)
  (Hs : Segment_new a b = Ok s) (Hs' : Segment_new c d = Ok s') :
  segment_eqb s s' = segment_eqb s' s.
Proof.
  unfold Segment_new in Hs, Hs'.
  destruct (point_eqb a b) eqn:Nab; [discriminate|].
  destruct (point_eqb c d) eqn:Ncd; [discriminate|].
  inversion Hs; inversion Hs'; subst; clear Hs Hs'.
  unfold segment_eqb, point_mem; simpl; rewrite !orb_false_r, !andb_true_r.
  rewrite (point_eqb_sym c a), (point_eqb_sym c b), (point_eqb_sym d a),
          (point_eqb_sym d b).
  destruct (point_eqb a c) eqn:E1, (point_eqb a d) eqn:E2,
           (point_eqb b c) eqn:E3, (point_eqb b d) eqn:E4;
    simpl; try reflexivity; exfalso; eqb_conflict.
Qed.

Lemma segment_eq_sym_witness :
  Segment_new (pt 0 0) (pt 1 0) = Ok (mkSegment (pt 0 0) (pt 1 0)) /\
  Segment_new (pt 1 0) (pt 0 0) = Ok (mkSegment (pt 1 0) (pt 0 0)) /\
  segment_eqb (mkSegment (pt 0 0) (pt 1 0)) (mkSegment (pt 1 0) (pt 0 0))
  = segment_eqb (mkSegment (pt 1 0) (pt 0 0)) (mkSegment (pt 0 0) (pt 1 0)).
Proof.
  assert (H1 : Segment_new (pt 0 0) (pt 1 0) = Ok (mkSegment (pt 0 0) (pt 1 0)))
    by reflexivity.
  assert (H2 : Segment_new (pt 1 0) (pt 0 0) = Ok (mkSegment (pt 1 0) (pt 0 0)))
    by reflexivity.
  split; [exact H1 | split; [exact H2 | exact (segment_eq_sym _ _ _ _ _ _ H1 H2)]].
Defined.

(** Three pairwise different vertices. *)
Definition distinct_vertices (t : Triangle) : Prop :=
  point_eqb (tp1 t) (tp2 t) = false /\ point_eqb (tp1 t) (tp3 t) = false /\
  point_eqb (tp2 t) (tp3 t) = false.

(** [Triangle.__eq__] compares vertex sets by inclusion; on triangles with
    three different vertices each it is symmetric. *)
Theorem triangle_eq_sym (t u : Triangle)
  (Ht : distinct_vertices t) (Hu : distinct_vertices u) :
  triangle_eqb t u = triangle_eqb u t.
Proof.
  destruct t as [a b c], u as [x y z].
  destruct Ht as [Nab [Nac Nbc]], Hu as [Nxy [Nxz Nyz]]; simpl in *.
  unfold triangle_eqb, triangle_points, point_mem; simpl.
  rewrite !orb_false_r, !andb_true_r.
  rewrite (point_eqb_sym x a), (point_eqb_sym x b), (point_eqb_sym x c),
          (point_eqb_sym y a), (point_eqb_sym y b), (point_eqb_sym y c),
          (point_eqb_sym z a), (point_eqb_sym z b), (point_eqb_sym z c).
  destruct (point_eqb a x) eqn:E1, (point_eqb a y) eqn:E2, (point_eqb a z) eqn:E3,
           (point_eqb b x) eqn:E4, (point_eqb b y) eqn:E5, (point_eqb b z) eqn:E6,
           (point_eqb c x) eqn:E7, (point_eqb c y) eqn:E8, (point_eqb c z) eqn:E9;
    simpl; try reflexivity; exfalso; eqb_conflict.
Qed.

Lemma triangle_eq_sym_witness :
  distinct_vertices (mkTriangle (pt 0 0) (pt 1 0) (pt 0 1)) /\
  distinct_vertices (mkTriangle (pt 0 1) (pt 0 0) (pt 1 0)) /\
  triangle_eqb (mkTriangle (pt 0 0) (pt 1 0) (pt 0 1)) (mkTriangle (pt 0 1) (pt 0 0) (pt 1 0))
  = triangle_eqb (mkTriangle (pt 0 1) (pt 0 0) (pt 1 0)) (mkTriangle (pt 0 0) (pt 1 0) (pt 0 1)).
Proof.
  assert (H1 : distinct_vertices (mkTriangle (pt 0 0) (pt 1 0) (pt 0 1)))
    by (repeat split).
  assert (H2 : distinct_vertices (mkTriangle (pt 0 1) (pt 0 0) (pt 1 0)))
    by (repeat split).
  split; [exact H1 | split; [exact H2 | exact (triangle_eq_sym _ _ H1 H2)]].
Defined.

(** ** [Line.distance_to] *)

Lemma Qminus_zero_eq (a b : Q) : a - b == 0 -> a == b.
Proof.
  intro H; setoid_replace a with (a - b + b) by ring; rewrite H; ring.
Qed.

Lemma Qsq_zero (a : Q) : a * a == 0 -> a == 0.
Proof. intro H; apply Qmult_integral in H; tauto. Qed.

Lemma Qsq_sum_zero (a b : Q) : a * a + b * b == 0 -> a == 0 /\ b == 0.
Proof.
  intro H.
  assert (Ha : a * a == 0).
  { apply Qle_antisym; [|apply Qsq_nonneg].
    rewrite <- H; rewrite <- (Qplus_0_r (a * a)) at 1.
    apply Qplus_le_compat; [apply Qle_refl | apply Qsq_nonneg]. }
  split; [apply Qsq_zero, Ha|].
  apply Qsq_zero; rewrite <- H, Ha; ring.
Qed.

(** For a line of the data model, [distance_to] (compared squared by its
    caller) never raises, is non-negative, and is zero exactly for the
    points on the line. *)
Theorem distance_to_spec (l : Line) (p : Point) (Hl : wf_line l) :
  exists v, distance_to l p = Ok v /\ 0 <= v /\ (v == 0 <-> line_contains l p = true).
Proof.
  unfold distance_to, line_contains.
  destruct (Qeq_bool (la l) 0) eqn:Ea.
  - apply Qeq_bool_iff in Ea.
    assert (Hb : ~ lb l == 0) by (destruct Hl; [contradiction | assumption]).
    rewrite (qdiv_ok _ _ Hb); simpl.
    eexists; split; [reflexivity|]; split; [apply Qsq_nonneg|]; split.
    + intro H; apply Qeq_bool_iff; apply Qsq_zero in H; rewrite Ea.
      setoid_replace (0 * px p + lb l * py p + lc l) with (lb l * (py p + lc l / lb l))
        by (field; exact Hb).
      rewrite H; ring.
    + intro H; apply Qeq_bool_iff in H; rewrite Ea in H.
      setoid_replace (py p + lc l / lb l) with ((0 * px p + lb l * py p + lc l) / lb l)
        by (field; exact Hb).
      rewrite H; field; exact Hb.
  - apply Qeq_bool_false_iff in Ea.
    destruct (Qeq_bool (lb l) 0) eqn:Eb.
    + apply Qeq_bool_iff in Eb.
      rewrite (qdiv_ok _ _ Ea); simpl.
      eexists; split; [reflexivity|]; split; [apply Qsq_nonneg|]; split.
      * intro H; apply Qeq_bool_iff; apply Qsq_zero in H; rewrite Eb.
        setoid_replace (la l * px p + 0 * py p + lc l) with (la l * (px p + lc l / la l))
          by (field; exact Ea).
        rewrite H; ring.
      * intro H; apply Qeq_bool_iff in H; rewrite Eb in H.
        setoid_replace (px p + lc l / la l) with ((la l * px p + 0 * py p + lc l) / la l)
          by (field; exact Ea).
        rewrite H; field; exact Ea.
    + apply Qeq_bool_false_iff in Eb.
      unfold slope; rewrite (proj2 (Qeq_bool_false_iff _ _) Eb); simpl.
      assert (Hden : ~ la l - - la l / lb l * lb l == 0).
      { setoid_replace (la l - - la l / lb l * lb l) with (2 * la l) by (field; exact Eb).
        intro Z; apply Ea; apply Qmult_integral in Z; destruct Z as [Z|Z];
          [discriminate Z | exact Z]. }
      rewrite (qdiv_ok _ _ Hden); simpl.
      rewrite (qdiv_ok _ _ Ea); simpl.
      set (y := (- la l / lb l * lc l + py p * la l + - la l / lb l * px p * la l)
                / (la l - - la l / lb l * lb l)).
      set (x' := - (lb l * y + lc l) / la l).
      eexists; split; [reflexivity|]; split; [apply Qsq_sum_nonneg|]; split.
      * intro H; apply Qeq_bool_iff; apply Qsq_sum_zero in H; destruct H as [Hx Hy].
        apply Qminus_zero_eq in Hx; apply Qminus_zero_eq in Hy.
        rewrite <- Hx, <- Hy; unfold x'; field; exact Ea.
      * intro H; apply Qeq_bool_iff in H.
        assert (Hc : lc l == - (la l * px p + lb l * py p))
          by (setoid_replace (lc l) with (la l * px p + lb l * py p + lc l
                                          - (la l * px p + lb l * py p)) at 1 by ring;
              rewrite H; ring).
        assert (Hy : y - py p == 0).
        { unfold y; rewrite Hc; field; split; [exact Eb|].
          setoid_replace (la l - - la l) with (2 * la l) by ring.
          intro Z; apply Ea; apply Qmult_integral in Z; destruct Z as [Z|Z];
            [discriminate Z | exact Z]. }
        assert (Hx : x' - px p == 0).
        { unfold x'; rewrite (Qminus_zero_eq _ _ Hy), Hc; field; exact Ea. }
        rewrite Hx, Hy; reflexivity.
Qed.

Lemma distance_to_spec_witness :
  wf_line diagonal /\
  exists v, distance_to diagonal (pt 0 2) = Ok v /\ 0 <= v /\
            (v == 0 <-> line_contains diagonal (pt 0 2) = true).
Proof.
  assert (Hl : wf_line diagonal) by (left; exact Qneq_1_0).
  split; [exact Hl | exact (distance_to_spec diagonal (pt 0 2) Hl)].
Defined.

(** ** [Point.distance_to] and [Point.midpoint] *)

Lemma point_distance_sq_nonneg (p q : Point) : 0 <= point_distance_sq p q.
Proof. unfold point_distance_sq; apply Qsq_sum_nonneg. Qed.

Lemma point_distance_eq_iff (r p q : Point) :
  point_distance r p = point_distance r q <->
  point_distance_sq r p == point_distance_sq r q.
Proof.
  unfold point_distance; split; intro H.
  - apply eqR_Qeq; apply sqrt_inj; [| |exact H];
      rewrite <- Q2R_0; apply Qle_Rle; apply point_distance_sq_nonneg.
  - rewrite (Qeq_eqR _ _ H); reflexivity.
Qed.

(** A linear condition [E == 0] that is a non-zero multiple of [X == 0],
    against a difference [A - B] that is another one. *)
Lemma lin_iff (E A B X k1 k2 : Q) :
  ~ k1 == 0 -> ~ k2 == 0 -> E == k1 * X -> A - B == k2 * X -> (E == 0 <-> A == B).
Proof.
  intros H1 H2 HE HD; split; intro H.
  - apply Qminus_zero_eq; rewrite HD.
    rewrite HE in H; apply Qmult_integral in H; destruct H as [H|H];
      [contradiction | rewrite H; ring].
  - rewrite HE.
    assert (Z : k2 * X == 0) by (rewrite <- HD, H; ring).
    apply Qmult_integral in Z; destruct Z as [Z|Z]; [contradiction | rewrite Z; ring].
Qed.

(** The perpendicular bisector built by [voronoi_diagram] for an edge:
    for two different points [p] and [q], [Line.from_two_points(p, q)
    .orthogonal_line(p.midpoint(q))] never raises nor answers [None], and
    the line it returns holds exactly the points at equal distance
    ([Point.distance_to]) from [p] and [q]. *)
Theorem perpendicular_bisector (p q : Point) (H : point_eqb p q = false) :
  exists l l', from_two_points p q = Ok l /\
    orthogonal_line l (midpoint p q) = Ok (Some l') /\
    forall r, line_contains l' r = true <-> point_distance r p = point_distance r q.
Proof.
  unfold from_two_points; rewrite H.
  destruct (Qeq_bool (px p) (px q)) eqn:E.
  - apply Qeq_bool_iff in E.
    assert (Ey : ~ py q - py p == 0).
    { intro Z; apply Qminus_zero_eq in Z.
      unfold point_eqb in H; rewrite (proj2 (Qeq_bool_iff _ _) E),
        (proj2 (Qeq_bool_iff _ _) (Qeq_sym _ _ Z)) in H; discriminate H. }
    exists (mkLine 1 0 (- px p)); eexists; split; [reflexivity|].
    unfold orthogonal_line, line_contains, midpoint; cbn [la lb lc px py].
    rewrite (proj2 (Qeq_bool_iff _ _)) by (rewrite E; field); cbn [negb].
    rewrite (proj2 (Qeq_bool_false_iff _ _) Qneq_1_0).
    rewrite (proj2 (Qeq_bool_iff _ _) (Qeq_refl 0)).
    split; [reflexivity|].
    intro r; rewrite point_distance_eq_iff, Qeq_bool_iff; cbn [la lb lc px py].
    apply lin_iff with (X := py r - (py p + py q) / 2) (k1 := 1)
                       (k2 := 2 * (py q - py p)); [exact Qneq_1_0| |ring|].
    + intro Z; apply Ey; apply Qmult_integral in Z; destruct Z as [Z|Z];
        [discriminate Z | exact Z].
    + unfold point_distance_sq; rewrite E; field.
  - apply Qeq_bool_false_iff in E.
    assert (D : ~ px q - px p == 0)
      by (intro D; apply E; symmetry; apply Qminus_zero_eq; exact D).
    set (m := (py q - py p) / (px q - px p)).
    assert (Hq : py q == py p + m * (px q - px p)) by (unfold m; field; exact D).
    assert (Hc : line_contains (mkLine m (-1) (py p - m * px p)) (midpoint p q) = true).
    { unfold line_contains, midpoint; simpl; apply Qeq_bool_iff.
      rewrite Hq; field. }
    exists (mkLine m (-1) (py p - m * px p)).
    unfold orthogonal_line; rewrite Hc; cbn [negb la lb lc].
    destruct (Qeq_bool m 0) eqn:Em.
    + apply Qeq_bool_iff in Em.
      eexists; split; [reflexivity|].
      split; [reflexivity|].
      intro r; rewrite point_distance_eq_iff; unfold line_contains;
        rewrite Qeq_bool_iff; cbn [la lb lc px py midpoint].
      apply lin_iff with (X := px r - (px p + px q) / 2) (k1 := 1)
                         (k2 := 2 * (px q - px p)); [exact Qneq_1_0| |ring|].
      * intro Z; apply D; apply Qmult_integral in Z; destruct Z as [Z|Z];
          [discriminate Z | exact Z].
      * unfold point_distance_sq; rewrite Hq, Em; field.
    + apply Qeq_bool_false_iff in Em.
      rewrite (proj2 (Qeq_bool_false_iff _ _) Qneq_m1_0).
      unfold slope; cbn [la lb lc].
      rewrite (proj2 (Qeq_bool_false_iff _ _) Qneq_m1_0).
      assert (Hs : ~ - m / -1 == 0)
        by (setoid_replace (- m / -1) with m by field; exact Em).
      rewrite (qdiv_ok _ _ Hs); cbn [bind].
      eexists; split; [reflexivity|]; split; [reflexivity|].
      intro r; rewrite point_distance_eq_iff; unfold line_contains;
        rewrite Qeq_bool_iff; cbn [la lb lc px py midpoint].
      apply lin_iff with (X := (px r - (px p + px q) / 2) + m * (py r - (py p + py q) / 2))
                         (k1 := -1 / m) (k2 := 2 * (px q - px p)).
      * intro Z; apply Em.
        setoid_replace m with (- 1 / (-1 / m)) by (field; exact Em).
        rewrite Z; reflexivity.
      * intro Z; apply D; apply Qmult_integral in Z; destruct Z as [Z|Z];
          [discriminate Z | exact Z].
      * field; exact Em.
      * unfold point_distance_sq; rewrite Hq; field.
Qed.

Lemma perpendicular_bisector_witness :
  point_eqb (pt 0 0) (pt 2 2) = false /\
  exists l l', from_two_points (pt 0 0) (pt 2 2) = Ok l /\
    orthogonal_line l (midpoint (pt 0 0) (pt 2 2)) = Ok (Some l') /\
    forall r, line_contains l' r = true <->
              point_distance r (pt 0 0) = point_distance r (pt 2 2).
Proof.
  assert (H : point_eqb (pt 0 0) (pt 2 2) = false) by reflexivity.
  split; [exact H | exact (perpendicular_bisector _ _ H)].
Defined.

(** ** Python's [max] and [min] with a key *)

(** [first_max] returns an item of greatest key, and every item before it
    has a strictly smaller key. *)
Lemma first_max_spec (b : Point * Q) (t : list (Point * Q)) :
  exists km pre post, b :: t = pre ++ (first_max b t, km) :: post /\
    Forall (fun x => snd x <= km) (b :: t) /\ Forall (fun x => snd x < km) pre.
Proof.
  revert b; induction t as [|[p k] t IH]; intro b; simpl.
  - exists (snd b), [], []; destruct b as [q kq]; simpl.
    split; [reflexivity|]; split; [constructor; [apply Qle_refl | constructor] | constructor].
  - destruct (Qlt_bool (snd b) k) eqn:Ek.
    + apply Qlt_bool_iff in Ek.
      destruct (IH (p, k)) as [km [pre [post [E [F1 F2]]]]].
      inversion F1 as [|x l Hk F1']; subst; simpl in Hk.
      exists km, (b :: pre), post; split; [simpl; f_equal; exact E|].
      split; [constructor; [apply Qlt_le_weak; apply Qlt_le_trans with k; assumption | exact F1]|].
      constructor; [apply Qlt_le_trans with k; assumption | exact F2].
    + apply Qlt_bool_false in Ek.
      destruct (IH b) as [km [pre [post [E [F1 F2]]]]].
      inversion F1 as [|x l Hb F1']; subst.
      assert (Hk : k <= km) by (apply Qle_trans with (snd b); assumption).
      destruct pre as [|b' pre]; simpl in E; injection E as Eb Et.
      * exists km, [], ((p, k) :: t); split; [simpl; rewrite <- Eb; reflexivity|].
        split; [constructor; [exact Hb | constructor; assumption] | constructor].
      * subst b'; inversion F2 as [|x l Hb' F2']; subst.
        exists km, (b :: (p, k) :: pre), post; split; [simpl; do 2 f_equal; exact Et|].
        split; [constructor; [exact Hb | constructor; assumption]|].
        constructor; [exact Hb'|]; constructor; [|exact F2'].
        apply Qle_lt_trans with (snd b); assumption.
Qed.

(** [first_max] over the items paired with their keys. *)
Lemma first_max_keyed (key : Point -> Q) (h : Point) (t : list Point) :
  let m := first_max (h, key h) (map (fun q => (q, key q)) t) in
  exists pre post, h :: t = pre ++ m :: post /\
    (forall q, In q (h :: t) -> key q <= key m) /\
    (forall q, In q pre -> key q < key m).
Proof.
  intro m.
  destruct (first_max_spec (h, key h) (map (fun q => (q, key q)) t))
    as [km [pre [post [E [F1 F2]]]]]; fold m in E.
  change ((h, key h) :: map (fun q => (q, key q)) t)
    with (map (fun q => (q, key q)) (h :: t)) in E, F1.
  assert (Km : km = key m).
  { assert (I : In (m, km) (map (fun q => (q, key q)) (h :: t)))
      by (rewrite E; apply in_or_app; right; left; reflexivity).
    apply in_map_iff in I; destruct I as [q [Eq _]]; inversion Eq; reflexivity. }
  subst km.
  exists (map fst pre), (map fst post); split; [|split].
  - rewrite <- (map_id (h :: t)) at 1.
    rewrite <- (map_map (fun q => (q, key q)) fst), E, map_app; reflexivity.
  - intros q Hq; rewrite Forall_forall in F1.
    apply (F1 (q, key q)); apply (in_map (fun q0 => (q0, key q0))); exact Hq.
  - intros q Hq; apply in_map_iff in Hq; destruct Hq as [x [Ex Hx]].
    rewrite Forall_forall in F2; specialize (F2 x Hx).
    assert (I : In x (map (fun q => (q, key q)) (h :: t)))
      by (rewrite E; apply in_or_app; left; exact Hx).
    apply in_map_iff in I; destruct I as [q' [Eq' _]]; subst x; simpl in Ex, F2.
    subst q'; exact F2.
Qed.

(** [max(l, key=...)] when it returns: an item of [l] of greatest key,
    the first such item in iteration order. *)
Lemma max_by_key_first_gen (key : Point -> result Q) (l : list Point) (m : Point)
  (H : max_by_key key l = Ok m) :
  exists km pre post, key m = Ok km /\ l = pre ++ m :: post /\
    (forall q, In q l -> exists kq, key q = Ok kq /\ kq <= km) /\
    (forall q, In q pre -> exists kq, key q = Ok kq /\ kq < km).
Proof.
  unfold max_by_key in H.
  apply bind_ok in H; destruct H as [ks [Hks H]].
  assert (E : map fst ks = l /\ Forall (fun x => key (fst x) = Ok (snd x)) ks).
  { clear H; revert ks Hks; induction l as [|a l IH]; intros ks Hks; simpl in Hks.
    - inversion Hks; split; [reflexivity | constructor].
    - apply bind_ok in Hks; destruct Hks as [pk [Hpk Hks]].
      apply bind_ok in Hks; destruct Hks as [rest [Hrest Hks]]; inversion Hks; subst.
      apply bind_ok in Hpk; destruct Hpk as [k [Hk Hpk]]; inversion Hpk; subst.
      destruct (IH _ Hrest) as [E1 E2].
      simpl; rewrite E1; split; [reflexivity | constructor; assumption]. }
  destruct E as [El Ek]; rewrite Forall_forall in Ek.
  destruct ks as [|b t]; [discriminate|]; inversion H; subst m; clear H.
  destruct (first_max_spec b t) as [km [pre [post [E [F1 F2]]]]].
  rewrite Forall_forall in F1, F2.
  assert (Ib : forall x, In x pre -> In x (b :: t))
    by (intros x Hx; rewrite E; apply in_or_app; left; exact Hx).
  exists km, (map fst pre), (map fst post); split; [|split; [|split]].
  - apply (Ek (first_max b t, km)); rewrite E; apply in_or_app; right; left; reflexivity.
  - rewrite <- El, E, map_app; reflexivity.
  - intros q Hq; rewrite <- El in Hq; apply in_map_iff in Hq; destruct Hq as [x [Ex Hx]].
    exists (snd x); subst q; split; [apply Ek; exact Hx | apply F1; exact Hx].
  - intros q Hq; apply in_map_iff in Hq; destruct Hq as [x [Ex Hx]].
    exists (snd x); subst q; split; [apply Ek; apply Ib; exact Hx | apply F2; exact Hx].
Qed.

(** The key of [find_hull] never raises on a line of the data model. *)
Lemma distance_to_ok (l : Line) (p : Point) (Hl : wf_line l) :
  exists v, distance_to l p = Ok v.
Proof.
  unfold distance_to.
  destruct (Qeq_bool (la l) 0) eqn:Ea.
  - apply Qeq_bool_iff in Ea.
    assert (Hb : ~ lb l == 0) by (destruct Hl; [contradiction | assumption]).
    rewrite (qdiv_ok _ _ Hb); eexists; reflexivity.
  - apply Qeq_bool_false_iff in Ea.
    destruct (Qeq_bool (lb l) 0) eqn:Eb.
    + rewrite (qdiv_ok _ _ Ea); eexists; reflexivity.
    + apply Qeq_bool_false_iff in Eb.
      unfold slope; rewrite (proj2 (Qeq_bool_false_iff _ _) Eb); cbn [bind].
      assert (Hden : ~ la l - - la l / lb l * lb l == 0).
      { setoid_replace (la l - - la l / lb l * lb l) with (2 * la l) by (field; exact Eb).
        intro Z; apply Ea; apply Qmult_integral in Z; destruct Z as [Z|Z];
          [discriminate Z | exact Z]. }
      rewrite (qdiv_ok _ _ Hden); cbn [bind].
      rewrite (qdiv_ok _ _ Ea); eexists; reflexivity.
Qed.

(** A key that never raises on the items: [max] returns. *)
Lemma max_by_key_total (key : Point -> result Q) (l : list Point)
  (Hk : forall q, In q l -> exists k, key q = Ok k) (Hne : l <> []) :
  exists m, max_by_key key l = Ok m.
Proof.
  assert (E : exists ks, mapM (fun p => k <- key p ;; Ok (p, k)) l = Ok ks /\
                         List.length ks = List.length l).
  { clear Hne; induction l as [|a l IH]; [exists []; split; reflexivity|].
    destruct (Hk a (or_introl eq_refl)) as [k Ek].
    destruct IH as [ks [Eks Lks]]; [intros q Hq; apply Hk; right; exact Hq|].
    exists ((a, k) :: ks); split; [simpl; rewrite Ek, Eks; reflexivity | simpl; lia]. }
  destruct E as [ks [Eks Lks]].
  unfold max_by_key; rewrite Eks; cbn [bind].
  destruct ks as [|b t]; [destruct l; [contradiction | discriminate Lks]|].
  eexists; reflexivity.
Qed.

(** [max(_points, key=lambda p: main_line.distance_to(p))] in
    [find_hull], for a non-empty candidate set and a line of the data
    model (as [Line.from_two_points] builds for two distinct points): every
    key is computed without error, and [max] returns a candidate furthest
    from the line, the first such candidate in iteration order. *)
Theorem max_by_key_furthest (main_line : Line) (pts : list Point)
  (Hl : wf_line main_line) (Hne : pts <> []) :
  exists m km pre post, max_by_key (distance_to main_line) pts = Ok m /\
    distance_to main_line m = Ok km /\ pts = pre ++ m :: post /\
    (forall q, In q pts -> exists kq, distance_to main_line q = Ok kq /\ kq <= km) /\
    (forall q, In q pre -> exists kq, distance_to main_line q = Ok kq /\ kq < km).
Proof.
  destruct (max_by_key_total (distance_to main_line) pts
              (fun q _ => distance_to_ok main_line q Hl) Hne) as [m Em].
  destruct (max_by_key_first_gen _ _ _ Em) as [km [pre [post [E1 [E2 [E3 E4]]]]]].
  exists m, km, pre, post; repeat split; assumption.
Qed.

Lemma max_by_key_furthest_witness :
  wf_line diagonal /\ [pt 0 0; pt 0 2; pt 2 0] <> [] /\
  exists m km pre post, max_by_key (distance_to diagonal) [pt 0 0; pt 0 2; pt 2 0] = Ok m /\
    distance_to diagonal m = Ok km /\ [pt 0 0; pt 0 2; pt 2 0] = pre ++ m :: post /\
    (forall q, In q [pt 0 0; pt 0 2; pt 2 0] ->
       exists kq, distance_to diagonal q = Ok kq /\ kq <= km) /\
    (forall q, In q pre -> exists kq, distance_to diagonal q = Ok kq /\ kq < km).
Proof.
  assert (Hl : wf_line diagonal) by (left; exact Qneq_1_0).
  assert (Hne : [pt 0 0; pt 0 2; pt 2 0] <> []) by discriminate.
  split; [exact Hl|]; split; [exact Hne|].
  exact (max_by_key_furthest diagonal _ Hl Hne).
Defined.

(** [max(points, key=...)] in [delaunay_triangulation]: the first item of
    greatest key. *)
Theorem max_by_first (key : Point -> Q) (l : list Point) (m : Point)
  (H : max_by key l = Ok m) :
  exists pre post, l = pre ++ m :: post /\
    (forall q, In q l -> key q <= key m) /\ (forall q, In q pre -> key q < key m).
Proof.
  destruct l as [|h t]; [discriminate|]; inversion H; subst m; clear H.
  rewrite (scan_first_max key _ (fun m q => eq_refl)).
  apply first_max_keyed.
Qed.

Lemma max_by_first_witness :
  max_by px [pt 0 0; pt 2 1; pt 2 3] = Ok (pt 2 1) /\
  exists pre post, [pt 0 0; pt 2 1; pt 2 3] = pre ++ pt 2 1 :: post /\
    (forall q, In q [pt 0 0; pt 2 1; pt 2 3] -> px q <= px (pt 2 1)) /\
    (forall q, In q pre -> px q < px (pt 2 1)).
Proof.
  assert (H : max_by px [pt 0 0; pt 2 1; pt 2 3] = Ok (pt 2 1)) by (vm_compute; reflexivity).
  split; [exact H | exact (max_by_first _ _ _ H)].
Defined.

(** [min(points, key=...)] in [delaunay_triangulation]: the first item of
    least key. *)
Theorem min_by_first (key : Point -> Q) (l : list Point) (m : Point)
  (H : min_by key l = Ok m) :
  exists pre post, l = pre ++ m :: post /\
    (forall q, In q l -> key m <= key q) /\ (forall q, In q pre -> key m < key q).
Proof.
  destruct l as [|h t]; [discriminate|]; inversion H; subst m; clear H.
  rewrite (scan_first_max (fun p => - key p) _
             (fun m q => ltac:(unfold Qlt_bool; rewrite Qle_bool_opp; reflexivity))).
  destruct (first_max_keyed (fun p => - key p) h t) as [pre [post [E [F1 F2]]]].
  exists pre, post; split; [exact E|]; split.
  - intros q Hq; specialize (F1 q Hq); apply Qopp_le_compat in F1;
      rewrite !Qopp_involutive in F1; exact F1.
  - intros q Hq; specialize (F2 q Hq); apply Qopp_lt_compat in F2;
      rewrite !Qopp_involutive in F2; exact F2.
Qed.

Lemma min_by_first_witness :
  min_by py [pt 0 3; pt 2 1; pt 5 1] = Ok (pt 2 1) /\
  exists pre post, [pt 0 3; pt 2 1; pt 5 1] = pre ++ pt 2 1 :: post /\
    (forall q, In q [pt 0 3; pt 2 1; pt 5 1] -> py (pt 2 1) <= py q) /\
    (forall q, In q pre -> py (pt 2 1) < py q).
Proof.
  assert (H : min_by py [pt 0 3; pt 2 1; pt 5 1] = Ok (pt 2 1)) by (vm_compute; reflexivity).
  split; [exact H | exact (min_by_first _ _ _ H)].
Defined.

(** ** [Point.distance_to] and [Point.midpoint] *)

Lemma Q2R_point_distance_sq_nonneg (p q : Point) : (0 <= Q2R (point_distance_sq p q))%R.
Proof. rewrite <- Q2R_0; apply Qle_Rle; apply point_distance_sq_nonneg. Qed.

(** [Point.distance_to] is symmetric and is zero exactly between equal
    points ([Point.__eq__]). *)
Theorem point_distance_spec (p q : Point) :
  point_distance p q = point_distance q p /\
  (point_distance p q = 0%R <-> point_eqb p q = true).
Proof.
  unfold point_distance; split.
  - f_equal; apply Qeq_eqR; unfold point_distance_sq; ring.
  - rewrite point_eqb_true; split; intro H.
    + apply sqrt_eq_0 in H; [|apply Q2R_point_distance_sq_nonneg].
      rewrite <- Q2R_0 in H; apply eqR_Qeq in H.
      apply Qsq_sum_zero in H; destruct H as [H1 H2].
      split; apply Qminus_zero_eq; assumption.
    + destruct H as [H1 H2].
      assert (Z : point_distance_sq p q == 0)
        by (unfold point_distance_sq; rewrite H1, H2; ring).
      rewrite (Qeq_eqR _ _ Z), Q2R_0; apply sqrt_0.
Qed.

(** [Point.midpoint] is at the same distance from both points, half their
    distance. *)
Theorem midpoint_distance (p q : Point) :
  point_distance p (midpoint p q) = point_distance q (midpoint p q) /\
  point_distance p q = (2 * point_distance p (midpoint p q))%R.
Proof.
  unfold point_distance; split.
  - f_equal; apply Qeq_eqR; unfold point_distance_sq, midpoint; simpl; field.
  - assert (E : point_distance_sq p q == 4 * point_distance_sq p (midpoint p q))
      by (unfold point_distance_sq, midpoint; simpl; field).
    rewrite (Qeq_eqR _ _ E), Q2R_mult.
    rewrite sqrt_mult_alt by (unfold Q2R; simpl; lra).
    f_equal.
    replace (Q2R 4) with (2 * 2)%R by (unfold Q2R; simpl; lra).
    apply sqrt_square; lra.
Qed.

(** ** [Circle.strictly_contains] on a circumcircle *)

(** A circle returned by [Circle.from_triangle] passes through the three
    vertices. *)
Lemma from_triangle_on_circle (t : Triangle) (c : Circle) :
  from_triangle t = Ok c ->
  Forall (fun v => point_distance_sq (mkPoint (ch c) (ck c)) v == cr2 c) (triangle_points t).
Proof.
  destruct t as [a b c']; simpl.
  set (d1 := px a * (py b - py c') - px b * (py a - py c') + px c' * (py a - py b)).
  unfold from_triangle; cbv zeta; simpl; fold d1.
  destruct (Qeq_bool d1 0) eqn:D; [unfold qdiv; rewrite D; discriminate|].
  apply Qeq_bool_false_iff in D.
  rewrite (qdiv_ok _ _ D); simpl.
  rewrite (qdiv_ok _ _ D); simpl.
  rewrite (qdiv_ok _ _ D); simpl.
  rewrite (qdiv_ok _ _ (Qmult_neq_0 _ _ D D)); simpl.
  intro E; inversion E; subst c.
  unfold triangle_points, point_distance_sq, dot, d1; simpl.
  repeat constructor; simpl; field; exact D.
Qed.

(** [Circle.from_triangle(t).strictly_contains(p)], the test for bad
    triangles in [delaunay_triangulation], never raises on a circle
    [from_triangle] returns, and is true exactly for the points strictly
    closer ([Point.distance_to]) to the circumcenter than the vertices. *)
Theorem circumcircle_strictly_contains (t : Triangle) (c : Circle)
  (H : from_triangle t = Ok c) (p : Point) :
  exists b, circle_strictly_contains c p = Ok b /\
    (b = true <-> (point_distance (mkPoint (ch c) (ck c)) p
                   < point_distance (mkPoint (ch c) (ck c)) (tp1 t))%R).
Proof.
  apply from_triangle_on_circle in H; inversion H as [|v l E1 _]; clear H.
  unfold circle_strictly_contains.
  assert (N : Qlt_bool (cr2 c) 0 = false)
    by (apply Qlt_bool_false; rewrite <- E1; apply point_distance_sq_nonneg).
  rewrite N; cbv zeta.
  eexists; split; [reflexivity|].
  rewrite Qlt_bool_iff; unfold point_distance.
  change ((ch c - px p) * (ch c - px p) + (ck c - py p) * (ck c - py p))
    with (point_distance_sq (mkPoint (ch c) (ck c)) p).
  rewrite <- E1; split; intro L.
  - apply sqrt_lt_1_alt; split; [apply Q2R_point_distance_sq_nonneg | apply Qlt_Rlt; exact L].
  - apply Rlt_Qlt; apply sqrt_lt_0_alt; exact L.
Qed.

Lemma circumcircle_strictly_contains_witness :
  exists c, from_triangle (mkTriangle (pt 0 0) (pt 2 0) (pt 0 2)) = Ok c /\
    exists b, circle_strictly_contains c (pt 1 1) = Ok b /\
      (b = true <-> (point_distance (mkPoint (ch c) (ck c)) (pt 1 1)
                     < point_distance (mkPoint (ch c) (ck c)) (pt 0 0))%R).
Proof.
  destruct (from_triangle (mkTriangle (pt 0 0) (pt 2 0) (pt 0 2))) as [c|e] eqn:E;
    [|vm_compute in E; discriminate E].
  exists c; split; [reflexivity|].
  exact (circumcircle_strictly_contains _ c E (pt 1 1)).
Defined.

(** ** The result of [voronoi_diagram] *)

(** [voronoi_diagram] never returns a segment or a ray. *)
Theorem voronoi_diagram_empty (points : list Point) (segs : list Segment) (rays : list Ray)
  (H : voronoi_diagram points = Ok (segs, rays)) :
  segs = [] /\ rays = [].
Proof.
  unfold voronoi_diagram in H.
  destruct (Nat.leb (List.length points) 2).
  - inversion H; split; reflexivity.
  - inv_bind H; apply delaunay_ok_nil in Ha; subst a.
    simpl in H; inversion H; split; reflexivity.
Qed.

Lemma voronoi_diagram_empty_witness :
  voronoi_diagram [pt 0 0; pt 1 0] = Ok ([], []) /\ [] = @nil Segment /\ [] = @nil Ray.
Proof.
  assert (H : voronoi_diagram [pt 0 0; pt 1 0] = Ok ([], [])) by reflexivity.
  split; [exact H | exact (voronoi_diagram_empty _ _ _ H)].
Defined.

(** ** The [dict]s of [voronoi_diagram] *)

Lemma segment_eqb_refl (s : Segment) : segment_eqb s s = true.
Proof.
  unfold segment_eqb, point_mem; simpl; rewrite !point_eqb_refl; simpl.
  rewrite orb_true_r; reflexivity.
Qed.

(** [d[k] = v] then [d[k]] gives [v]; a key already present keeps its
    place in the iteration order, a new one goes last. *)
Theorem dict_set_get {V : Type} (d : dict V) (k : Segment) (v : V) :
  dict_get (dict_set d k v) k = Some v /\
  (dict_get d k = None -> dict_set d k v = d ++ [(k, v)]) /\
  (dict_get d k <> None -> map fst (dict_set d k v) = map fst d).
Proof.
  induction d as [|[k' v'] d IH]; simpl.
  - rewrite segment_eqb_refl; split; [reflexivity|]; split; [reflexivity|].
    intro N; exfalso; apply N; reflexivity.
  - destruct (segment_eqb k' k) eqn:E; simpl.
    + rewrite E; split; [reflexivity|]; split; [discriminate | reflexivity].
    + rewrite E; destruct IH as [I1 [I2 I3]]; split; [exact I1|]; split.
      * intro N; rewrite (I2 N); reflexivity.
      * intro N; rewrite (I3 N); reflexivity.
Qed.

(** ** The extreme points of [convex_hull] *)

(** For more than three points, the hull [convex_hull] returns starts with
    [min_x], the first point of least abscissa in iteration order, and
    holds [max_x], the last point of greatest abscissa, after the points
    found above the line [min_x]-[max_x], whatever the order of iteration
    of the sets it builds. *)
Theorem convex_hull_extremes (order : set_order) (points hull : list Point)
  (Hc : convex_hull order points = Ok hull) (Hn : (3 < List.length points)%nat) :
  exists min_x max_x h1 h2, hull = min_x :: h1 ++ max_x :: h2 /\
    (exists pre post, points = pre ++ min_x :: post /\
       (forall q, In q points -> px min_x <= px q) /\
       (forall q, In q pre -> px min_x < px q)) /\
    (exists pre post, points = pre ++ max_x :: post /\
       (forall q, In q points -> px q <= px max_x) /\
       (forall q, In q post -> px q < px max_x)).
Proof.
  unfold convex_hull in Hc; cbv zeta in Hc.
  destruct (Nat.leb (List.length points) 3) eqn:L;
    [apply Nat.leb_le in L; lia|].
  destruct points as [|first rest]; [discriminate|].
  destruct (rev (first :: rest)) as [|last rr] eqn:Er; [discriminate|].
  apply bind_ok in Hc; destruct Hc as [line [_ Hc]].
  apply bind_ok in Hc; destruct Hc as [upper [_ Hc]].
  apply bind_ok in Hc; destruct Hc as [h1 [_ Hc]].
  apply bind_ok in Hc; destruct Hc as [lower [_ Hc]].
  apply bind_ok in Hc; destruct Hc as [h2 [_ Hc]]; inversion Hc; subst hull; clear Hc.
  exists (scan_min_x first rest), (scan_max_x last rr), h1, h2; split; [reflexivity|].
  split.
  - unfold scan_min_x.
    rewrite (scan_first_max (fun q => - px q) _ scan_min_x_step).
    destruct (first_max_keyed (fun q => - px q) first rest) as [pre [post [E [F1 F2]]]].
    exists pre, post; split; [exact E|]; split.
    + intros q Hq; specialize (F1 q Hq); apply Qopp_le_compat in F1;
        rewrite !Qopp_involutive in F1; exact F1.
    + intros q Hq; specialize (F2 q Hq); apply Qopp_lt_compat in F2;
        rewrite !Qopp_involutive in F2; exact F2.
  - unfold scan_max_x.
    rewrite (scan_first_max px _ (fun m q => eq_refl)).
    destruct (first_max_keyed px last rr) as [pre [post [E [F1 F2]]]].
    set (m := first_max (last, px last) (map (fun q => (q, px q)) rr)) in *.
    assert (Ep : first :: rest = rev post ++ m :: rev pre).
    { rewrite <- (rev_involutive (first :: rest)), Er, E, rev_app_distr; simpl.
      rewrite <- app_assoc; reflexivity. }
    exists (rev post), (rev pre); split; [exact Ep|]; split.
    + intros q Hq; apply F1; rewrite <- Er; apply in_rev; rewrite rev_involutive; exact Hq.
    + intros q Hq; apply F2; apply in_rev; exact Hq.
Qed.

Lemma convex_hull_extremes_witness :
  convex_hull insertion_order [pt 0 0; pt 4 2; pt 4 0; pt 2 2; pt 1 3]
    = Ok [pt 0 0; pt 1 3; pt 4 2; pt 2 2; pt 4 0] /\
  (3 < List.length [pt 0 0; pt 4 2; pt 4 0; pt 2 2; pt 1 3])%nat /\
  exists min_x max_x h1 h2, [pt 0 0; pt 1 3; pt 4 2; pt 2 2; pt 4 0]
                              = min_x :: h1 ++ max_x :: h2 /\
    (exists pre post, [pt 0 0; pt 4 2; pt 4 0; pt 2 2; pt 1 3] = pre ++ min_x :: post /\
       (forall q, In q [pt 0 0; pt 4 2; pt 4 0; pt 2 2; pt 1 3] -> px min_x <= px q) /\
       (forall q, In q pre -> px min_x < px q)) /\
    (exists pre post, [pt 0 0; pt 4 2; pt 4 0; pt 2 2; pt 1 3] = pre ++ max_x :: post /\
       (forall q, In q [pt 0 0; pt 4 2; pt 4 0; pt 2 2; pt 1 3] -> px q <= px max_x) /\
       (forall q, In q post -> px q < px max_x)).
Proof.
  assert (E : convex_hull insertion_order [pt 0 0; pt 4 2; pt 4 0; pt 2 2; pt 1 3]
                = Ok [pt 0 0; pt 1 3; pt 4 2; pt 2 2; pt 4 0]) by (vm_compute; reflexivity).
  assert (L : (3 < List.length [pt 0 0; pt 4 2; pt 4 0; pt 2 2; pt 1 3])%nat)
    by (simpl; lia).
  split; [exact E|]; split; [exact L|].
  exact (convex_hull_extremes _ _ _ E L).
Defined.

(** ** The super-triangle of [delaunay_triangulation] *)

Lemma min_by_cons (key : Point -> Q) (h : Point) (t : list Point) :
  exists m, min_by key (h :: t) = Ok m /\ forall q, In q (h :: t) -> key m <= key q.
Proof.
  eexists; split; [reflexivity|].
  rewrite (scan_first_max (fun p => - key p) _
             (fun m q => ltac:(unfold Qlt_bool; rewrite Qle_bool_opp; reflexivity))).
  destruct (first_max_keyed (fun p => - key p) h t) as [pre [post [_ [F1 _]]]].
  intros q Hq; specialize (F1 q Hq); apply Qopp_le_compat in F1;
    rewrite !Qopp_involutive in F1; exact F1.
Qed.

Lemma max_by_cons (key : Point -> Q) (h : Point) (t : list Point) :
  exists m, max_by key (h :: t) = Ok m /\ forall q, In q (h :: t) -> key q <= key m.
Proof.
  eexists; split; [reflexivity|].
  rewrite (scan_first_max key _ (fun m q => eq_refl)).
  destruct (first_max_keyed key h t) as [pre [post [_ [F1 _]]]]; exact F1.
Qed.

(** The barycentric test on a triangle with a horizontal base from
    [(Ax, Y0)] to [(Bx, Y0)] and its apex above the middle of the base,
    at the height where the sides have slopes [h] and [-h]. *)
Lemma super_bary (Ax Bx Y0 h cx cy qx qy : Q) :
  0 < h -> Ax < qx -> qx < Bx -> Y0 < qy ->
  qy - Y0 < h * (qx - Ax) -> qy - Y0 < h * (Bx - qx) ->
  cx == (Ax + Bx) / 2 -> cy == Y0 + h * (Bx - Ax) / 2 ->
  triangle_strictly_contains (mkTriangle (mkPoint Ax Y0) (mkPoint Bx Y0) (mkPoint cx cy))
                             (mkPoint qx qy) = true.
Proof.
  intros Hh H1 H2 H3 H4 H5 Hcx Hcy.
  assert (W : 0 < Bx - Ax) by Lqa.lra.
  assert (Half : forall a, 0 < a -> 0 < a / 2)
    by (intros a Ha; apply Qlt_shift_div_l; [reflexivity|]; rewrite Qmult_0_l; exact Ha).
  unfold triangle_strictly_contains; cbv zeta; cbn [tp1 tp2 tp3 px py].
  destruct (Qlt_bool _ 0) eqn:Ed.
  - exfalso; apply Qlt_bool_iff in Ed.
    match type of Ed with ?d < 0 =>
      setoid_replace d with (h * ((Bx - Ax) * (Bx - Ax)) / 2) in Ed
        by (rewrite Hcx, Hcy; field) end.
    apply (Qlt_irrefl 0); apply Qlt_trans with (h * ((Bx - Ax) * (Bx - Ax)) / 2);
      [apply Half; apply Qmult_lt_0_compat; [exact Hh | apply Qmult_lt_0_compat; exact W]
      | exact Ed].
  - apply andb_true_intro; split; [apply andb_true_intro; split|]; apply Qlt_bool_iff.
    + match goal with |- 0 < ?s =>
        setoid_replace s with ((Bx - Ax) * (h * (Bx - qx) - (qy - Y0)) / 2)
          by (rewrite Hcx, Hcy; field) end.
      apply Half; apply Qmult_lt_0_compat; [exact W | Lqa.lra].
    + match goal with |- 0 < ?u =>
        setoid_replace u with ((Bx - Ax) * (h * (qx - Ax) - (qy - Y0)) / 2)
          by (rewrite Hcx, Hcy; field) end.
      apply Half; apply Qmult_lt_0_compat; [exact W | Lqa.lra].
    + apply Qlt_minus_iff.
      match goal with |- 0 < ?e =>
        setoid_replace e with ((Bx - Ax) * (qy - Y0)) by (rewrite Hcx, Hcy; field) end.
      apply Qmult_lt_0_compat; [exact W | Lqa.lra].
Qed.

Lemma Qle_mult_ge_1 (h z : Q) : 0 < h -> 1 <= z -> h <= h * z.
Proof.
  intros Hh Hz; rewrite <- (Qmult_1_r h) at 1.
  apply Qmult_le_l; [exact Hh | exact Hz].
Qed.

(** For a non-empty set of points, the super-triangle [delaunay_triangulation]
    starts from is built without error, and it strictly contains
    ([Triangle.strictly_contains]) every point of the set. *)
Theorem super_triangle_contains (points : list Point) (Hne : points <> []) :
  exists T, super_triangle_of points = Ok T /\
    forall q, In q points -> triangle_strictly_contains T q = true.
Proof.
  destruct points as [|p0 rest]; [contradiction|]; clear Hne.
  destruct (min_by_cons px p0 rest) as [mnx [Emnx Bmnx]].
  destruct (max_by_cons px p0 rest) as [mxx [Emxx Bmxx]].
  destruct (min_by_cons py p0 rest) as [mny [Emny Bmny]].
  destruct (max_by_cons py p0 rest) as [mxy [Emxy Bmxy]].
  unfold super_triangle_of; rewrite Emnx, Emxx, Emny, Emxy; cbn [bind].
  set (xmin := px mnx) in *; set (xmax := px mxx) in *;
    set (ymin := py mny) in *; set (ymax := py mxy) in *.
  assert (Hx : xmin <= xmax)
    by (apply Qle_trans with (px p0); [apply Bmnx | apply Bmxx]; left; reflexivity).
  assert (Hy : ymin <= ymax)
    by (apply Qle_trans with (py p0); [apply Bmny | apply Bmxy]; left; reflexivity).
  assert (N1 : Qeq_bool (xmin - 1) xmin = false)
    by (apply Qeq_bool_false_iff; intro Z; Lqa.lra).
  assert (N2 : Qeq_bool (xmax + 1) xmax = false)
    by (apply Qeq_bool_false_iff; intro Z; Lqa.lra).
  unfold from_two_points, point_eqb; cbn [px py]; rewrite N1, N2; cbn [andb bind].
  set (m1 := (ymax + 1 - (ymin - 1)) / (xmin - (xmin - 1))).
  set (m2 := (ymax + 1 - (ymin - 1)) / (xmax - (xmax + 1))).
  set (h := ymax - ymin + 2).
  assert (Hh : 0 < h) by (unfold h; Lqa.lra).
  assert (Hm1 : m1 == h)
    by (unfold m1, h; setoid_replace (xmin - (xmin - 1)) with 1 by ring; field).
  assert (Hm2 : m2 == - h)
    by (unfold m2, h; setoid_replace (xmax - (xmax + 1)) with (-1) by ring; field).
  unfold intersection, slope; cbn [la lb lc].
  rewrite (proj2 (Qeq_bool_false_iff _ _) Qneq_m1_0); cbn [slope_eqb].
  assert (S : Qeq_bool (- m1 / -1) (- m2 / -1) = false).
  { apply Qeq_bool_false_iff; rewrite Hm1, Hm2; intro Z.
    setoid_replace (- h / -1) with h in Z by field.
    setoid_replace (- - h / -1) with (- h) in Z by field.
    Lqa.lra. }
  rewrite S; cbn [negb].
  assert (D : ~ m2 * -1 - m1 * -1 == 0)
    by (rewrite Hm1, Hm2; intro Z; Lqa.lra).
  rewrite (qdiv_ok _ _ D); cbn [bind].
  assert (A1 : Qeq_bool m1 0 = false)
    by (apply Qeq_bool_false_iff; rewrite Hm1; intro Z; Lqa.lra).
  rewrite A1; cbn [negb la lb lc].
  assert (A1' : ~ m1 == 0) by (apply Qeq_bool_false_iff; exact A1).
  rewrite (qdiv_ok _ _ A1'); cbn [bind].
  rewrite (qdiv_ok _ _ A1'); cbn [bind].
  eexists; split; [reflexivity|].
  intros [qx qy] Hq.
  assert (Bq : xmin <= qx /\ qx <= xmax /\ ymin <= qy /\ ymax >= qy).
  { split; [apply (Bmnx _ Hq)|]; split; [apply (Bmxx _ Hq)|].
    split; [apply (Bmny _ Hq) | apply (Bmxy _ Hq)]. }
  destruct Bq as [Q1 [Q2 [Q3 Q4]]].
  set (y := (m1 * (ymin - 1 - m2 * (xmax + 1)) - m2 * (ymin - 1 - m1 * (xmin - 1)))
            / (m2 * -1 - m1 * -1)).
  assert (Ey : y == ymin - 1 + h * (xmax + 1 - (xmin - 1)) / 2).
  { unfold y; rewrite Hm1, Hm2; field; intro Z; Lqa.lra. }
  apply super_bary with (h := h).
  - exact Hh.
  - Lqa.lra.
  - Lqa.lra.
  - Lqa.lra.
  - apply Qlt_le_trans with h; [unfold h; Lqa.lra | apply Qle_mult_ge_1; [exact Hh | Lqa.lra]].
  - apply Qlt_le_trans with h; [unfold h; Lqa.lra | apply Qle_mult_ge_1; [exact Hh | Lqa.lra]].
  - rewrite Ey, Hm1; field; intro Z; Lqa.lra.
  - exact Ey.
Qed.

Lemma super_triangle_contains_witness :
  [pt 0 0; pt 2 1; pt 1 3] <> [] /\
  exists T, super_triangle_of [pt 0 0; pt 2 1; pt 1 3] = Ok T /\
    forall q, In q [pt 0 0; pt 2 1; pt 1 3] -> triangle_strictly_contains T q = true.
Proof.
  assert (H : [pt 0 0; pt 2 1; pt 1 3] <> []) by discriminate.
  split; [exact H | exact (super_triangle_contains _ H)].
Defined.

(** ** One insertion step of [delaunay_triangulation] *)

Lemma filterM_In {A : Type} (f : A -> result bool) (l r : list A) :
  filterM f l = Ok r ->
  forall x, In x l -> exists b, f x = Ok b /\ (b = true -> In x r).
Proof.
  revert r; induction l as [|a l IH]; intros r H x Hx; [destruct Hx|]; simpl in H.
  apply bind_ok in H; destruct H as [b [Hb H]].
  apply bind_ok in H; destruct H as [r' [Hr' H]]; inversion H; subst; clear H.
  destruct Hx as [<- | Hx].
  - exists b; split; [exact Hb|]; intro E; subst b; left; reflexivity.
  - destruct (IH _ Hr' x Hx) as [b' [Hb' Hin]].
    exists b'; split; [exact Hb'|]; intro E; specialize (Hin E).
    destruct b; [right|]; exact Hin.
Qed.

Lemma filterM_all_false {A : Type} (f : A -> result bool) (l : list A) :
  (forall x, In x l -> f x = Ok false) -> filterM f l = Ok [].
Proof.
  induction l as [|a l IH]; intro H; simpl; [reflexivity|].
  rewrite (H a (or_introl eq_refl)); simpl.
  rewrite IH by (intros x Hx; apply H; right; exact Hx); reflexivity.
Qed.

Lemma triangle_eqb_refl (t : Triangle) : triangle_eqb t t = true.
Proof.
  unfold triangle_eqb, triangle_points, point_mem; simpl.
  rewrite !point_eqb_refl; simpl; rewrite !orb_true_r; reflexivity.
Qed.

Lemma triangle_add_fold_In (l s : list Triangle) (t : Triangle) :
  In t (fold_left triangle_add l s) -> In t s \/ In t l.
Proof.
  revert s; induction l as [|u l IH]; intros s H; simpl in H; [left; exact H|].
  destruct (IH _ H) as [H1|H1]; [|right; right; exact H1].
  unfold triangle_add in H1; destruct (triangle_mem u s); [left; exact H1|].
  apply in_app_or in H1; destruct H1 as [H1|[<-|[]]]; [left; exact H1 | right; left; reflexivity].
Qed.

(** One pass of [for p in points:] in [delaunay_triangulation]: every
    triangle it leaves is either a triangle of the previous triangulation
    whose circumcircle ([Circle.from_triangle]) does not strictly contain
    [p], or a new triangle [Triangle(edge.p1, edge.p2, p)] with [p] as its
    third vertex. *)
Theorem insert_point_triangles (T T' : list Triangle) (p : Point)
  (H : insert_point T p = Ok T') :
  forall t, In t T' ->
    (In t T /\ exists c, from_triangle t = Ok c /\ circle_strictly_contains c p = Ok false)
    \/ tp3 t = p.
Proof.
  unfold insert_point in H.
  apply bind_ok in H; destruct H as [bad [Hbad H]].
  apply bind_ok in H; destruct H as [polygon [_ H]]; cbv zeta in H.
  inversion H as [E]; clear H.
  intros t Ht; apply triangle_add_fold_In in Ht; destruct Ht as [Ht|Ht].
  - apply filter_In in Ht; destruct Ht as [Ht Hk]; left; split; [exact Ht|].
    destruct (filterM_In _ _ _ Hbad t Ht) as [b [Hb Hin]].
    destruct b.
    + specialize (Hin eq_refl).
      assert (M : triangle_mem t bad = true)
        by (apply existsb_exists; exists t; split; [exact Hin | apply triangle_eqb_refl]).
      rewrite M in Hk; discriminate Hk.
    + apply bind_ok in Hb; destruct Hb as [c [Hc Hb]]; exists c; split; assumption.
  - right; apply triangle_add_fold_In in Ht; destruct Ht as [[]|Ht].
    apply in_map_iff in Ht; destruct Ht as [e [<- _]]; reflexivity.
Qed.

Lemma insert_point_triangles_witness :
  insert_point [mkTriangle (pt 0 0) (pt 4 0) (pt 0 4)] (pt 1 1)
    = Ok [mkTriangle (pt 0 0) (pt 4 0) (pt 1 1); mkTriangle (pt 4 0) (pt 0 4) (pt 1 1);
          mkTriangle (pt 0 4) (pt 0 0) (pt 1 1)] /\
  forall t, In t [mkTriangle (pt 0 0) (pt 4 0) (pt 1 1); mkTriangle (pt 4 0) (pt 0 4) (pt 1 1);
                  mkTriangle (pt 0 4) (pt 0 0) (pt 1 1)] ->
    (In t [mkTriangle (pt 0 0) (pt 4 0) (pt 0 4)] /\
     exists c, from_triangle t = Ok c /\ circle_strictly_contains c (pt 1 1) = Ok false)
    \/ tp3 t = pt 1 1.
Proof.
  assert (H : insert_point [mkTriangle (pt 0 0) (pt 4 0) (pt 0 4)] (pt 1 1)
    = Ok [mkTriangle (pt 0 0) (pt 4 0) (pt 1 1); mkTriangle (pt 4 0) (pt 0 4) (pt 1 1);
          mkTriangle (pt 0 4) (pt 0 0) (pt 1 1)]) by (vm_compute; reflexivity).
  split; [exact H | exact (insert_point_triangles _ _ _ H)].
Defined.

(** A point strictly inside no circumcircle of the triangulation leaves it
    unchanged: no triangle is bad, the polygon is empty and nothing is
    added. *)
Theorem insert_point_no_bad (T : list Triangle) (p : Point)
  (H : forall t, In t T -> exists c, from_triangle t = Ok c /\
                                     circle_strictly_contains c p = Ok false) :
  insert_point T p = Ok T.
Proof.
  unfold insert_point.
  rewrite filterM_all_false.
  - simpl; f_equal.
    induction T as [|t T IH]; simpl; [reflexivity|].
    f_equal; apply IH; intros u Hu; apply H; right; exact Hu.
  - intros t Ht; destruct (H t Ht) as [c [Hc Hp]]; rewrite Hc; exact Hp.
Qed.

Lemma insert_point_no_bad_witness :
  (forall t, In t [mkTriangle (pt 0 0) (pt 1 0) (pt 0 1)] ->
     exists c, from_triangle t = Ok c /\ circle_strictly_contains c (pt 5 5) = Ok false) /\
  insert_point [mkTriangle (pt 0 0) (pt 1 0) (pt 0 1)] (pt 5 5)
    = Ok [mkTriangle (pt 0 0) (pt 1 0) (pt 0 1)].
Proof.
  assert (H : forall t, In t [mkTriangle (pt 0 0) (pt 1 0) (pt 0 1)] ->
     exists c, from_triangle t = Ok c /\ circle_strictly_contains c (pt 5 5) = Ok false).
  { intros t [<- | []].
    destruct (from_triangle (mkTriangle (pt 0 0) (pt 1 0) (pt 0 1))) as [c|e] eqn:E;
      [|vm_compute in E; discriminate E].
    exists c; split; [reflexivity|].
    vm_compute in E; inversion E; vm_compute; reflexivity. }
  split; [exact H | exact (insert_point_no_bad _ _ H)].
Defined.

(** ** The circumcenters of an edge in [voronoi_diagram] *)

Lemma dict_get_set_same {V : Type} (d : dict V) (k : Segment) (v : V) :
  dict_get (dict_set d k v) k = Some v.
Proof.
  induction d as [|[k' v'] d IH]; simpl; [rewrite segment_eqb_refl; reflexivity|].
  destruct (segment_eqb k' k) eqn:E; simpl; rewrite E; [reflexivity | exact IH].
Qed.

(** The [try]/[except KeyError] of the first loop of [voronoi_diagram] puts
    a circumcenter in [circumcenters1] only under a key no entry matches:
    [circumcenters1] only grows at its end. *)
Lemma dict_set_absent {V : Type} (d : dict V) (k : Segment) (v : V) :
  dict_get d k = None -> dict_set d k v = d ++ [(k, v)].
Proof.
  induction d as [|[k' v'] d IH]; simpl; [reflexivity|].
  destruct (segment_eqb k' k); [discriminate|].
  intro N; rewrite (IH N); reflexivity.
Qed.

Lemma dict_get_app_absent {V : Type} (d r : dict V) (q : Segment) :
  dict_get d q = None -> dict_get (d ++ r) q = dict_get r q.
Proof.
  induction d as [|[k' v'] d IH]; simpl; [reflexivity|].
  destruct (segment_eqb k' q); [discriminate | exact IH].
Qed.

(** Two keys equal to the same stored keys look up the same entry. *)
Lemma dict_get_equiv {V : Type} (d : dict V) (q1 q2 : Segment) :
  (forall k, segment_eqb k q1 = segment_eqb k q2) -> dict_get d q1 = dict_get d q2.
Proof.
  intro E; induction d as [|[k' v'] d IH]; simpl; [reflexivity|].
  rewrite E, IH; reflexivity.
Qed.

(** [Segment.__eq__] does not see the order of the endpoints. *)
Lemma segment_eqb_swap (k : Segment) (a b : Point) :
  segment_eqb k (mkSegment b a) = segment_eqb k (mkSegment a b).
Proof.
  unfold segment_eqb, point_mem; cbn [sp1 sp2 forallb existsb].
  destruct (point_eqb (sp1 k) a), (point_eqb (sp1 k) b),
           (point_eqb (sp2 k) a), (point_eqb (sp2 k) b); reflexivity.
Qed.

Lemma circumcenters1_grows (ops : list dual_op) :
  forall st d0 r, circumcenters1 st = d0 ++ r ->
  exists r', circumcenters1 (fold_left apply_op ops st) = d0 ++ r'.
Proof.
  induction ops as [|op ops IH]; intros st d0 r E; simpl; [exists r; exact E|].
  apply (IH _ d0 (match op with
                  | UpdateBelow _ _ => r
                  | RecordEdge cc x =>
                      match dict_get (circumcenters1 st) x with
                      | Some _ => r
                      | None => r ++ [(x, cc)]
                      end
                  end)).
  destruct op as [x bl | cc x]; simpl; [exact E|].
  unfold record_edge; destruct (dict_get (circumcenters1 st) x) eqn:G; simpl;
    [exact E|].
  rewrite (dict_set_absent _ _ _ G), E, app_assoc; reflexivity.
Qed.

(** The body of [for triangle in triangles:] is a run of these steps. *)
Lemma dual_triangle_steps (st st' : dual_state) (t : Triangle) :
  dual_triangle st t = Ok st' ->
  exists cc e0 e1 e2 b0 b1 b2,
    st' = fold_left apply_op [UpdateBelow e0 b0; UpdateBelow e1 b1; UpdateBelow e2 b2;
                              RecordEdge cc e0; RecordEdge cc e1; RecordEdge cc e2] st.
Proof.
  unfold dual_triangle; intro H.
  inv_bind H; inv_bind H; inv_bind H; inv_bind H; inv_bind H; inv_bind H; inv_bind H.
  inversion H; subst st'; clear H.
  do 7 eexists; reflexivity.
Qed.

(** The first loop of [voronoi_diagram] on an edge [a]-[b] shared by two
    triangles: the first triangle met records its circumcenter [cc1] under
    the edge, which no entry of [circumcenters1] matched yet; any steps of
    the loop may follow (the other edges of the triangle, the
    [edge_below_point] updates and the edges of the triangles in between,
    equal to [a]-[b] or not); then the second triangle records its
    circumcenter [cc2] under its own [Segment] of that edge, [a]-[b] or
    [b]-[a].  Afterwards [circumcenters1] gives [cc1] and [circumcenters2]
    gives [cc2] for the edge, looked up either way round. *)
Theorem shared_edge_circumcenters (st : dual_state) (a b cc1 cc2 : Point)
  (ops : list dual_op) (e2 : Segment)
  (H : dict_get (circumcenters1 st) (mkSegment a b) = None)
  (He2 : e2 = mkSegment a b \/ e2 = mkSegment b a) :
  let st' := record_edge cc2
               (fold_left apply_op ops (record_edge cc1 st (mkSegment a b))) e2 in
  dict_get (circumcenters1 st') (mkSegment a b) = Some cc1 /\
  dict_get (circumcenters1 st') (mkSegment b a) = Some cc1 /\
  dict_get (circumcenters2 st') (mkSegment a b) = Some cc2 /\
  dict_get (circumcenters2 st') (mkSegment b a) = Some cc2.
Proof.
  intro st'.
  assert (Ee2 : forall k, segment_eqb k e2 = segment_eqb k (mkSegment a b))
    by (intro k; destruct He2 as [-> | ->]; [reflexivity | apply segment_eqb_swap]).
  assert (Eba : forall k, segment_eqb k (mkSegment b a) = segment_eqb k (mkSegment a b))
    by (intro k; apply segment_eqb_swap).
  assert (C1 : circumcenters1 (record_edge cc1 st (mkSegment a b))
               = (circumcenters1 st ++ [(mkSegment a b, cc1)]) ++ []).
  { unfold record_edge; rewrite H; cbn [circumcenters1].
    rewrite app_nil_r; apply dict_set_absent, H. }
  destruct (circumcenters1_grows ops _ _ _ C1) as [r Er].
  set (S := fold_left apply_op ops (record_edge cc1 st (mkSegment a b))) in *.
  assert (G : forall q, (forall k, segment_eqb k q = segment_eqb k (mkSegment a b)) ->
              dict_get (circumcenters1 S) q = Some cc1).
  { intros q Eq; rewrite Er, <- app_assoc, dict_get_app_absent.
    - simpl; rewrite Eq, segment_eqb_refl; reflexivity.
    - rewrite (dict_get_equiv _ _ _ Eq); exact H. }
  assert (Est : st' = mkDual (circumcenters1 S) (dict_set (circumcenters2 S) e2 cc2)
                             (edge_below_point S))
    by (unfold st', record_edge; rewrite (G e2 Ee2); reflexivity).
  rewrite Est; cbn [circumcenters1 circumcenters2].
  split; [apply G; reflexivity|].
  split; [apply G; exact Eba|].
  assert (Ea : forall q, (forall k, segment_eqb k q = segment_eqb k (mkSegment a b)) ->
               dict_get (dict_set (circumcenters2 S) e2 cc2) q = Some cc2).
  { intros q Eq.
    rewrite (dict_get_equiv _ q e2) by (intro k; rewrite Eq, Ee2; reflexivity).
    apply dict_get_set_same. }
  split; apply Ea; [reflexivity | exact Eba].
Qed.

Lemma shared_edge_circumcenters_witness :
  dict_get (circumcenters1 (mkDual [] [] [])) (mkSegment (pt 0 0) (pt 2 0)) = None /\
  (mkSegment (pt 2 0) (pt 0 0) = mkSegment (pt 0 0) (pt 2 0) \/
   mkSegment (pt 2 0) (pt 0 0) = mkSegment (pt 2 0) (pt 0 0)) /\
  let st' := record_edge (pt 1 5)
               (fold_left apply_op
                  [RecordEdge (pt 1 (-5)) (mkSegment (pt 2 0) (pt 1 (-1)));
                   RecordEdge (pt 1 (-5)) (mkSegment (pt 1 (-1)) (pt 0 0));
                   UpdateBelow (mkSegment (pt 2 0) (pt 0 0)) false;
                   RecordEdge (pt 1 5) (mkSegment (pt 0 2) (pt 2 0))]
                  (record_edge (pt 1 (-5)) (mkDual [] [] []) (mkSegment (pt 0 0) (pt 2 0))))
               (mkSegment (pt 2 0) (pt 0 0)) in
  dict_get (circumcenters1 st') (mkSegment (pt 0 0) (pt 2 0)) = Some (pt 1 (-5)) /\
  dict_get (circumcenters1 st') (mkSegment (pt 2 0) (pt 0 0)) = Some (pt 1 (-5)) /\
  dict_get (circumcenters2 st') (mkSegment (pt 0 0) (pt 2 0)) = Some (pt 1 5) /\
  dict_get (circumcenters2 st') (mkSegment (pt 2 0) (pt 0 0)) = Some (pt 1 5).
Proof.
  assert (H : dict_get (circumcenters1 (mkDual [] [] [])) (mkSegment (pt 0 0) (pt 2 0)) = None)
    by reflexivity.
  assert (He2 : mkSegment (pt 2 0) (pt 0 0) = mkSegment (pt 0 0) (pt 2 0) \/
                mkSegment (pt 2 0) (pt 0 0) = mkSegment (pt 2 0) (pt 0 0))
    by (right; reflexivity).
  split; [exact H|]; split; [exact He2|].
  exact (shared_edge_circumcenters _ _ _ _ _ _ _ H He2).
Defined.
